(** * SimpleRaytracing: the integrator, the ray and the render loop

    A shallow embedding of [src/main.cpp] and [src/ray.h].

    The program computes with C++ [double].  Every function is written once,
    over an interface [Double] that lists the operations the source applies to
    a [double], and is read at two instances:

    - [float], Rocq's primitive IEEE 754 binary64 numbers: what the machine
      computes, NaN, infinities and rounding included;
    - [R], the real numbers: the exact arithmetic the design document reasons
      in ("three real-valued components").  A statement at this instance
      says what the formulas mean; it says nothing of what the doubles do,
      and is never given for a fact about them.

    An [int] is a [Z]: the counters of [main] stay within [-1, 800] and
    [ray_color] only decrements a positive [depth], so no [int] operation of
    the program wraps around.

    The headers [vec3.h], [rtweekend.h], [hittable.h], [sphere.h],
    [material.h], [camera.h] and [colour.h] are not among the files
    embedded here; what
    the two files use of them is either modelled from the design document
    (the vector operations, the fields of a hit record, the sphere's own
    [hit]) or taken as a parameter (the virtual methods [hit] and [scatter], the camera, the
    random source, [write_colour], and the constant [infinity]).  The name
    [at] is reserved in Rocq, so [ray::at] is [at_]. *)

From Stdlib Require Import ZArith QArith List String Ascii Bool Lia.
From Stdlib Require Import Floats Reals Lra.
From Stdlib Require DecimalString.
Import ListNotations.

Set Implicit Arguments.
Set Warnings "-inexact-float".

(* ================================================================= *)
(** ** The arithmetic of [double] *)

(** What the two source files do with a [double]: write a decimal literal,
    convert from and to [int], the four operations, unary minus, [sqrt], and
    the comparison [<]. *)
Class Double (F : Type) : Type := {
  lit    : Q -> F;          (* a decimal literal, as written in the source *)
  of_int : Z -> F;          (* implicit conversion int -> double *)
  to_int : F -> Z;          (* static_cast<int>: truncation toward zero *)
  add    : F -> F -> F;
  sub    : F -> F -> F;
  mul    : F -> F -> F;
  div    : F -> F -> F;
  neg    : F -> F;
  sqrt   : F -> F;
  ltb    : F -> F -> bool
}.

Declare Scope dbl_scope.
Delimit Scope dbl_scope with dbl.
Infix "+" := add : dbl_scope.
Infix "-" := sub : dbl_scope.
Infix "*" := mul : dbl_scope.
Infix "/" := div : dbl_scope.
Notation "- x" := (neg x) : dbl_scope.
Infix "<?" := ltb : dbl_scope.

(** *** Instance 1: IEEE 754 binary64 *)

Module F64.

(** int -> double.  Exact for every 32-bit [int] (|z| < 2^53). *)
Definition of_int (z : Z) : float :=
  if (z <? 0)%Z then PrimFloat.opp (PrimFloat.of_uint63 (Uint63.of_Z (- z)))
  else PrimFloat.of_uint63 (Uint63.of_Z z).

(** A decimal literal [n / 10^k] denotes the double nearest to that
    rational.  IEEE division is correctly rounded, so dividing the two
    (exactly represented) integers yields that double. *)
Definition lit (q : Q) : float :=
  PrimFloat.div (of_int (Qnum q)) (of_int (Zpos (Qden q))).

(** double -> int, truncating toward zero.  The conversion of a NaN or an
    infinity is undefined in C++; it is given the value 0 here. *)
Definition to_int (x : float) : Z :=
  match Prim2SF x with
  | S754_finite s m e =>
      let v := if (0 <=? e)%Z then (Zpos m * 2 ^ e)%Z
               else (Zpos m / 2 ^ (- e))%Z in
      if s then (- v)%Z else v
  | _ => 0%Z
  end.

End F64.

#[export] Instance Double_float : Double float := {
  lit    := F64.lit;
  of_int := F64.of_int;
  to_int := F64.to_int;
  add    := PrimFloat.add;
  sub    := PrimFloat.sub;
  mul    := PrimFloat.mul;
  div    := PrimFloat.div;
  neg    := PrimFloat.opp;
  sqrt   := PrimFloat.sqrt;
  ltb    := PrimFloat.ltb
}.

(** *** Instance 2: exact real arithmetic *)

Module Exact.

Definition ltb (x y : R) : bool := if Rlt_dec x y then true else false.

Definition to_int (x : R) : Z :=
  if Rle_dec 0 x then Int_part x else (- Int_part (- x))%Z.

End Exact.

#[export] Instance Double_R : Double R := {
  lit    := Q2R;
  of_int := IZR;
  to_int := Exact.to_int;
  add    := Rplus;
  sub    := Rminus;
  mul    := Rmult;
  div    := Rdiv;
  neg    := Ropp;
  sqrt   := R_sqrt.sqrt;
  ltb    := Exact.ltb
}.

(* ================================================================= *)
(** ** Vectors and rays *)

Section Geometry.

Context {F : Type} {D : Double F}.
Local Open Scope dbl_scope.

(** Modelled from the spec: [vec3.h] is not among the sources.  "Vector3 -
    three real-valued components (x, y, z); used interchangeably as
    point-in-space and direction/color", with "add/subtract/negate; scale
    by scalar; component-wise multiply; dot product; length()/
    length_squared(); unit_vector() = self / length".  Sums of three terms
    associate to the left, as C++ evaluates [a + b + c]. *)
Record vec3 : Type := mk_vec3 { x : F; y : F; z : F }.

Definition point3 : Type := vec3.
Definition color  : Type := vec3.

Definition vadd (u v : vec3) : vec3 :=
  mk_vec3 (x u + x v) (y u + y v) (z u + z v).

Definition vsub (u v : vec3) : vec3 :=
  mk_vec3 (x u - x v) (y u - y v) (z u - z v).

(** [vec3 * vec3], component-wise (colour tinting). *)
Definition vmul (u v : vec3) : vec3 :=
  mk_vec3 (x u * x v) (y u * y v) (z u * z v).

(** [double * vec3]. *)
Definition smul (t : F) (v : vec3) : vec3 :=
  mk_vec3 (t * x v) (t * y v) (t * z v).

(** [vec3 / double]. *)
Definition sdiv (v : vec3) (t : F) : vec3 :=
  mk_vec3 (x v / t) (y v / t) (z v / t).

Definition dot (u v : vec3) : F :=
  x u * x v + y u * y v + z u * z v.

Definition length_squared (v : vec3) : F :=
  x v * x v + y v * y v + z v * z v.

Definition length (v : vec3) : F := sqrt (length_squared v).

Definition unit_vector (v : vec3) : vec3 := sdiv v (length v).

(** [vec3(a, b, c)], [point3(a, b, c)], [color(a, b, c)] with literal
    arguments.  A negative literal [-c] is the negation of [c]; at both
    instances [lit (- c)] and [- lit c] are the same number. *)
Definition v3 (a b c : Q) : color := mk_vec3 (lit a) (lit b) (lit c).

(** *** [ray.h] *)

Record ray : Type := mk_ray { m_origin : point3; m_direction : vec3 }.

Definition origin (r : ray) : point3 := m_origin r.

Definition direction (r : ray) : vec3 := m_direction r.

Definition at_ (r : ray) (t : F) : point3 :=
  vadd (m_origin r) (smul t (m_direction r)).

(* =============================================================== *)
(** ** [main.cpp]: the standalone sphere test *)

(** The value [hit_sphere] returns when the discriminant is negative. *)
Definition no_hit : F := - lit 1.0.

Definition hit_sphere (center : point3) (radius : F) (r : ray) : F :=
  let oc := vsub (origin r) center in
  let a := length_squared (direction r) in
  let half_b := dot oc (direction r) in
  let c := length_squared oc - radius * radius in
  let discriminant := half_b * half_b - a * c in
  if discriminant <? of_int 0 then - lit 1.0
  else (- half_b - sqrt discriminant) / a.

End Geometry.

Arguments vec3 F : clear implicits.
Arguments point3 F : clear implicits.
Arguments color F : clear implicits.
Arguments ray F : clear implicits.

(* ================================================================= *)
(** ** The roots of the sphere quadratic *)

Section SphereSpec.

Context {F : Type} {D : Double F}.
Local Open Scope dbl_scope.

(** [t] lies in the open interval [(t_min, t_max)]. *)
Definition in_range (t_min t_max t : F) : bool :=
  (t_min <? t) && (t <? t_max).

(** The two roots of the quadratic, computed as [hit_sphere] computes its
    coefficients. *)
Definition discriminant_of (center : point3 F) (radius : F) (r : ray F) : F :=
  let oc := vsub (origin r) center in
  let a := length_squared (direction r) in
  let half_b := dot oc (direction r) in
  let c := length_squared oc - radius * radius in
  half_b * half_b - a * c.

Definition near_root (center : point3 F) (radius : F) (r : ray F) : F :=
  let oc := vsub (origin r) center in
  let a := length_squared (direction r) in
  let half_b := dot oc (direction r) in
  (- half_b - sqrt (discriminant_of center radius r)) / a.

Definition far_root (center : point3 F) (radius : F) (r : ray F) : F :=
  let oc := vsub (origin r) center in
  let a := length_squared (direction r) in
  let half_b := dot oc (direction r) in
  (- half_b + sqrt (discriminant_of center radius r)) / a.

(** The ray meets the sphere at parameter [t]: the point [r.at(t)] is at
    squared distance [radius^2] from the center. *)
Definition on_sphere (center : point3 F) (radius : F) (r : ray F) (t : F)
    : Prop :=
  length_squared (vsub (at_ r t) center) = radius * radius.

End SphereSpec.

(* ================================================================= *)
(** ** [main.cpp]: the integrator *)

Section Integrator.

Context {F : Type} {D : Double F}.
Local Open Scope dbl_scope.

(** The scene and the materials are reached through the virtual methods
    [hittable::hit] and [material::scatter], whose classes are not among
    the sources: both are parameters.  A call may read and update state
    outside the integrator (the process-wide random source that the
    materials draw from), so each takes and returns that state, of an
    arbitrary type [G].  The bool result and the out-parameters of the
    C++ signatures become an [option]. *)
Variable G : Type.
Variable hittable : Type.
Variable material : Type.

(** Modelled from the spec: [hit_record] of [hittable.h].  "hit point,
    surface normal, ray parameter t, a reference to the material at the
    hit point, and a boolean front_face flag". *)
Record hit_record : Type := mk_hit_record {
  p : point3 F;
  normal : vec3 F;
  mat_ptr : material;
  t : F;
  front_face : bool
}.

Variable hit :
  hittable -> ray F -> F -> F -> G -> option hit_record * G.
Variable scatter :
  material -> ray F -> hit_record -> G -> option (color F * ray F) * G.

(** The constant [infinity] of [rtweekend.h]. *)
Variable infinity : F.

Definition black : color F :=
  mk_vec3 (of_int 0) (of_int 0) (of_int 0).

(** [ray_color].  The recursion is on [depth - 1] below a test
    [depth <= 0]; [fuel] only makes it structural, and
    [Z.to_nat depth] is always enough (lemma [ray_color_eq] states the
    function's equation without it). *)
Fixpoint ray_color_fuel (fuel : nat) (r : ray F) (world : hittable)
    (depth : Z) (g : G) : color F * G :=
  if (depth <=? 0)%Z then (black, g)
  else
    match fuel with
    | O => (black, g)
    | S fuel' =>
        match hit world r (lit 0.001) infinity g with
        | (Some rec, g1) =>
            match scatter (mat_ptr rec) r rec g1 with
            | (Some (attenuation, scattered), g2) =>
                let (c, g3) :=
                  ray_color_fuel fuel' scattered world (depth - 1) g2 in
                (vmul attenuation c, g3)
            | (None, g2) => (black, g2)
            end
        | (None, g1) =>
            let unit_direction := unit_vector (direction r) in
            let t := lit 0.5 * (y unit_direction + lit 1.0) in
            (vadd (smul (lit 1.0 - t) (v3 1.0 1.0 1.0))
                  (smul t (v3 0.5 0.7 1.0)), g1)
        end
    end.

Definition ray_color (r : ray F) (world : hittable) (depth : Z) (g : G)
    : color F * G :=
  ray_color_fuel (Z.to_nat depth) r world depth g.

(** The background colour of the last three lines of [ray_color]. *)
Definition background (r : ray F) : color F :=
  let unit_direction := unit_vector (direction r) in
  let t := lit 0.5 * (y unit_direction + lit 1.0) in
  vadd (smul (lit 1.0 - t) (v3 1.0 1.0 1.0)) (smul t (v3 0.5 0.7 1.0)).

(** The blend parameter [t] of those lines. *)
Definition sky_t (r : ray F) : F :=
  let unit_direction := unit_vector (direction r) in
  lit 0.5 * (y unit_direction + lit 1.0).

(** *** A scene that records what it is asked

    Any [hit] can be wrapped so that it notes the interval of every query
    in a log kept next to the state; [scatter] is lifted to leave the log
    alone. *)
Definition logged_hit (w : hittable) (r : ray F) (t_min t_max : F)
    (lg : list (F * F) * G) : option hit_record * (list (F * F) * G) :=
  let (o, g') := hit w r t_min t_max (snd lg) in
  (o, (fst lg ++ [(t_min, t_max)], g')).

Definition logged_scatter (m : material) (r : ray F) (rec : hit_record)
    (lg : list (F * F) * G) : option (color F * ray F) * (list (F * F) * G) :=
  let (o, g') := scatter m r rec (snd lg) in
  (o, (fst lg, g')).

End Integrator.

Arguments hit_record F material : clear implicits.

(* ================================================================= *)
(** ** The sphere of the design document *)

Section SphereHit.

Context {F : Type} {D : Double F}.
Local Open Scope dbl_scope.

Variable material : Type.

(** Modelled from the spec: the negation of a vector, an operation of
    [vec3.h], which is not among the sources ("add/subtract/negate"). *)
Definition vneg (v : vec3 F) : vec3 F :=
  mk_vec3 (- x v) (- y v) (- z v).

(** Modelled from the spec: the record that [sphere::hit] of [sphere.h]
    fills in for a root; [sphere.h] is not among the sources.  "Outward
    normal = (hit_point - center) / radius.  front_face =
    dot(ray.direction, outward_normal) < 0; stored normal is flipped to
    always oppose the incoming ray." *)
Definition sphere_record (center : point3 F) (radius : F) (mat : material)
    (r : ray F) (root : F) : hit_record F material :=
  let hit_point := at_ r root in
  let outward_normal := sdiv (vsub hit_point center) radius in
  let facing := dot (direction r) outward_normal <? of_int 0 in
  mk_hit_record hit_point
    (if facing then outward_normal else vneg outward_normal)
    mat root facing.

(** Modelled from the spec: [sphere::hit] of [sphere.h], the
    interval-taking intersection routine of the sphere, which is not among
    the sources ([hit_sphere] of [main.cpp] takes no interval and is a
    different routine).  "hit(ray, t_min, t_max) -> optional HitRecord.
    No real root => no hit.  Otherwise take the smaller root t1; if t1 is
    outside (t_min, t_max), try the larger root t2; if neither lies in
    range, report no hit." *)
Definition sphere_hit (center : point3 F) (radius : F) (mat : material)
    (r : ray F) (t_min t_max : F) : option (hit_record F material) :=
  if discriminant_of center radius r <? of_int 0 then None
  else
    let t1 := near_root center radius r in
    let t2 := far_root center radius r in
    if in_range t_min t_max t1
    then Some (sphere_record center radius mat r t1)
    else if in_range t_min t_max t2
         then Some (sphere_record center radius mat r t2)
         else None.

End SphereHit.

(* ================================================================= *)
(** ** [main.cpp]: the scene and the render loop *)

(** The C [for] statement [for (i = i0; cond(i); i = step(i)) body], run on
    a state of type [S].  [fuel] bounds the number of iterations; each use
    below passes the exact trip count. *)
Fixpoint for_loop {S : Type} (fuel : nat) (cond : Z -> bool) (step : Z -> Z)
    (body : Z -> S -> S) (i : Z) (st : S) : S :=
  match fuel with
  | O => st
  | Datatypes.S fuel' =>
      if cond i then for_loop fuel' cond step body (step i) (body i st)
      else st
  end.

(** [std::ostream << int]. *)
Definition show_int (n : Z) : string :=
  DecimalString.NilZero.string_of_int (Z.to_int n).

Definition nl : string := String (ascii_of_nat 10) EmptyString.
Definition cr : string := String (ascii_of_nat 13) EmptyString.

Section Main.

Context {F : Type} {D : Double F}.
Local Open Scope dbl_scope.
Local Open Scope string_scope.

(** The material and sphere constructors called by [main], as data: each
    records its arguments.  The classes themselves ([material.h],
    [sphere.h], [hittable_list.h]) are not among the sources. *)
Inductive material : Type :=
| lambertian (albedo : color F)
| metal (albedo : color F) (fuzz : F)
| dielectric (index_of_refraction : F).

Record sphere : Type := mk_sphere {
  center : point3 F;
  radius : F;
  sphere_mat : material
}.

(** [hittable_list]: the objects in the order [add] received them. *)
Definition hittable_list : Type := list sphere.

(** The process: the state [G] behind the random source, and the two
    output streams. *)
Variable G : Type.

Record process : Type := mk_process {
  glob : G;
  cout : string;
  cerr : string
}.

Definition put_cout (s : string) (st : process) : process :=
  mk_process (glob st) (cout st ++ s) (cerr st).

Definition put_cerr (s : string) (st : process) : process :=
  mk_process (glob st) (cout st) (cerr st ++ s).

(** Parameters: everything [main] calls that lives in a missing header. *)
Variable hit :
  hittable_list -> ray F -> F -> F -> G -> option (hit_record F material) * G.
Variable scatter :
  material -> ray F -> hit_record F material -> G ->
  option (color F * ray F) * G.
Variable infinity : F.
Variable camera : Type.
Variable camera_new :
  point3 F -> point3 F -> vec3 F -> F -> F -> F -> F -> camera.
Variable get_ray : camera -> F -> F -> G -> ray F * G.
Variable random_double : G -> F * G.
(** The text [write_colour(out, pixel_color, samples_per_pixel)] appends
    to [out]. *)
Variable write_colour : color F -> Z -> string.

(** *** Image *)
Definition aspect_ratio : F := lit 16.0 / lit 9.0.
Definition image_width : Z := 800.
Definition image_height : Z := to_int (of_int image_width / aspect_ratio).
Definition samples_per_pixel : Z := 250.
Definition max_depth : Z := 10.

(** *** World.  ([auto R = cos(pi / 4)] is never used and is left out.) *)
Definition material_ground     := lambertian (v3 0.3 0.0 0.4).
Definition material_lambertian := lambertian (v3 0.9 0.1 0.6).
Definition material_dialectric := dielectric (lit 1.5).
Definition material_metal      := metal (v3 0.7 0.7 0.7) (lit 0.2).
Definition material_fuzzyMetal := metal (v3 0.7 0.7 0.7) (lit 0.9).
Definition material_bronze     := metal (v3 0.8 0.45 0.3) (lit 0.6).
Definition material_redMetal   := metal (v3 1.0 0.0 0.0) (lit 0.1).

Definition world : hittable_list :=
  [ mk_sphere (v3 0.0 (-1000.5) (-1.0)) (lit 1000.0) material_ground;
    mk_sphere (v3 0.0 0.0 (-1.0)) (lit 0.5) material_lambertian;
    mk_sphere (v3 (-1.0) 0.0 (-1.0)) (lit 0.5) material_dialectric;
    mk_sphere (v3 (-1.0) 0.0 (-1.0)) (lit (-0.49)) material_dialectric;
    mk_sphere (v3 (-1.0) 0.0 (-1.0)) (lit 0.2) material_bronze;
    mk_sphere (v3 1.0 0.0 (-1.0)) (lit 0.5) material_metal;
    mk_sphere (v3 (-1.2) (-0.3) (-0.3)) (lit 0.2) material_dialectric;
    mk_sphere (v3 (-0.6) (-0.3) (-0.3)) (lit 0.2) material_dialectric;
    mk_sphere (v3 (-0.6) (-0.3) (-0.3)) (lit (-0.19)) material_dialectric;
    mk_sphere (v3 0.0 (-0.3) (-0.3)) (lit 0.2) material_fuzzyMetal;
    mk_sphere (v3 0.6 (-0.3) (-0.3)) (lit 0.2) material_redMetal;
    mk_sphere (v3 1.2 (-0.3) (-0.3)) (lit 0.2) material_bronze ].

(** *** Camera *)
Definition lookfrom : point3 F := v3 0.35 0.5 2.
Definition lookat : point3 F := v3 0 0 (-0.75).
Definition vup : vec3 F := v3 0 1.75 0.
Definition dist_to_focus : F := length (vsub lookfrom lookat).
Definition aperture : F := lit 0.075.
Definition cam : camera :=
  camera_new lookfrom lookat vup (of_int 40) aspect_ratio aperture
             dist_to_focus.

(** *** Render *)

Definition header : string :=
  "P3" ++ nl ++ show_int image_width ++ " " ++ show_int image_height
       ++ nl ++ "255" ++ nl.

(** One sample of pixel [(i, j)]: the body of the innermost loop. *)
Definition sample (i j : Z) (acc : color F * G) : color F * G :=
  let (pixel_color, g) := acc in
  let (rd1, g1) := random_double g in
  let u := (of_int i + rd1) / of_int (image_width - 1) in
  let (rd2, g2) := random_double g1 in
  let v := (of_int j + rd2) / of_int (image_height - 1) in
  let (r, g3) := get_ray cam u v g2 in
  let (c, g4) := ray_color hit scatter infinity r world max_depth g3 in
  (vadd pixel_color c, g4).

(** Pixel [(i, j)]: the body of the loop over [i]. *)
Definition pixel (j i : Z) (st : process) : process :=
  let (pixel_color, g) :=
    for_loop (Z.to_nat samples_per_pixel)
             (fun s => (s <? samples_per_pixel)%Z) Z.succ
             (fun _ => sample i j) 0%Z (black, glob st) in
  put_cout (write_colour pixel_color samples_per_pixel)
           (mk_process g (cout st) (cerr st)).

(** Scanline [j]: the body of the loop over [j]. *)
Definition scanline (j : Z) (st : process) : process :=
  let st1 :=
    put_cerr (cr ++ "Scanlines remaining: " ++ show_int j ++ " ") st in
  for_loop (Z.to_nat image_width) (fun i => (i <? image_width)%Z) Z.succ
           (pixel j) 0%Z st1.

Definition main (st : process) : process :=
  let st1 := put_cout header st in
  let st2 :=
    for_loop (Z.to_nat image_height) (fun j => (0 <=? j)%Z) Z.pred
             scanline (image_height - 1)%Z st1 in
  put_cerr (nl ++ "Done." ++ nl) st2.

End Main.

Arguments material F : clear implicits.
Arguments sphere F : clear implicits.
Arguments hittable_list F : clear implicits.
Arguments process G : clear implicits.

(* ================================================================= *)
(** ** Index lists and concrete inputs *)

(** The rows of an image of height [h], top row first, and the columns of
    an image of width [w], left to right. *)
Definition rows_top_down (h : Z) : list Z :=
  map Z.of_nat (rev (seq 0 (Z.to_nat h))).

Definition cols_left_right (w : Z) : list Z :=
  map Z.of_nat (seq 0 (Z.to_nat w)).

(** The concatenation of a list of texts. *)
Definition cat (l : list string) : string := fold_right append EmptyString l.

(** What the calls [write_colour(std::cout, c, n)], one for each colour [c]
    of the list [cs] in turn, append to the standard output. *)
Definition written {F : Type} (write_colour : color F -> Z -> string)
    (n : Z) (cs : list (color F)) : string :=
  cat (map (fun c => write_colour c n) cs).

(** Small scenes on which the functions can be run. *)
Module Demo.

(** The outside state is a call counter. *)
Definition G : Type := nat.

(** [Empty] is never hit; [Shiny] is always hit and always scatters;
    [Soot] is always hit and always absorbs; [Pane] is hit by the first
    query only, and scatters. *)
Inductive scene : Type := Empty | Shiny | Soot | Pane.

Section Scenes.

Context {F : Type} {D : Double F}.

Definition hit (w : scene) (r : ray F) (t_min t_max : F) (g : G)
    : option (hit_record F bool) * G :=
  match w with
  | Empty => (None, g)
  | Shiny =>
      (Some (mk_hit_record (at_ r (lit 1)) (v3 0 1 0) true (lit 1) true),
       S g)
  | Soot =>
      (Some (mk_hit_record (at_ r (lit 1)) (v3 0 1 0) false (lit 1) true),
       S g)
  | Pane =>
      match g with
      | O =>
          (Some (mk_hit_record (at_ r (lit 1)) (v3 0 1 0) true (lit 1)
                   true), S g)
      | S _ => (None, g)
      end
  end.

Definition scatter (m : bool) (r : ray F) (rec : hit_record F bool)
    (g : G) : option (color F * ray F) * G :=
  if m then (Some (v3 0.5 0.5 0.5, mk_ray (p rec) (normal rec)), S g)
  else (None, S g).

End Scenes.

(** The unit sphere at the origin, and three rays along the z axis: one
    starting in front of the sphere, one at its center, one halfway
    between the center and the surface. *)
Definition sphere_center : point3 float := v3 0 0 0.
Definition sphere_radius : float := lit 1.
Definition ray_in_front : ray float := mk_ray (v3 0 0 (-5)) (v3 0 0 1).
Definition ray_from_center : ray float := mk_ray (v3 0 0 0) (v3 0 0 1).
Definition ray_from_inside : ray float := mk_ray (v3 0 0 0.5) (v3 0 0 1).

(** A ray parallel to the z axis that passes the sphere at distance 5. *)
Definition ray_passing_by : ray float := mk_ray (v3 0 5 0) (v3 0 0 1).


(** A ray whose direction has a squared length that is not zero but is
    rounded to the smallest positive double. *)
Definition ray_faint : ray float :=
  mk_ray (v3 0 0 0) (mk_vec3 (lit 0) (-0x1.8p-537)%float (lit 0)).

End Demo.

(* ================================================================= *)
(** ** Vocabulary of the further properties *)

Section Counting.
Context {F : Type} {D : Double F}.
Variables G hittable material : Type.
Variable hit :
  hittable -> ray F -> F -> F -> G -> option (hit_record F material) * G.
Variable scatter :
  material -> ray F -> hit_record F material -> G ->
  option (color F * ray F) * G.

(** A scene and a material that count the calls they receive: the first
    counter is the number of [hit] queries, the second the number of
    [scatter] calls. *)
Definition counted_hit (w : hittable) (r : ray F) (t_min t_max : F)
    (cg : (nat * nat) * G)
    : option (hit_record F material) * ((nat * nat) * G) :=
  let (o, g') := hit w r t_min t_max (snd cg) in
  (o, ((S (fst (fst cg)), snd (fst cg)), g')).

Definition counted_scatter (m : material) (r : ray F)
    (rec : hit_record F material) (cg : (nat * nat) * G)
    : option (color F * ray F) * ((nat * nat) * G) :=
  let (o, g') := scatter m r rec (snd cg) in
  (o, ((fst (fst cg), S (snd (fst cg))), g')).
End Counting.

(** A double that is finite and not negative: +0 or a positive finite
    number. *)
Definition finite_nonneg (c : float) : bool :=
  match Prim2SF c with
  | S754_zero false | S754_finite false _ _ => true
  | _ => false
  end.

(** A double that is neither an infinity nor a NaN. *)
Definition finite_double (c : float) : bool :=
  match Prim2SF c with
  | S754_zero _ | S754_finite _ _ _ => true
  | _ => false
  end.

(** The double -0. *)
Definition minus_zero (c : float) : bool :=
  match Prim2SF c with
  | S754_zero true => true
  | _ => false
  end.

(** The same of each component of a vector. *)
Definition all_finite_nonneg (v : vec3 float) : bool :=
  finite_nonneg (x v) && finite_nonneg (y v) && finite_nonneg (z v).

Definition all_finite (v : vec3 float) : bool :=
  finite_double (x v) && finite_double (y v) && finite_double (z v).

Definition some_minus_zero (v : vec3 float) : bool :=
  minus_zero (x v) || minus_zero (y v) || minus_zero (z v).

(** The progress note that [main] writes to the standard error before
    scanline [j]. *)
Definition progress_note (j : Z) : string :=
  (cr ++ "Scanlines remaining: " ++ show_int j ++ " ")%string.

Section RayCounter.
Context {F : Type} {D : Double F}.
Variable G : Type.
Variable hit :
  hittable_list F -> ray F -> F -> F -> G ->
  option (hit_record F (material F)) * G.
Variable scatter :
  material F -> ray F -> hit_record F (material F) -> G ->
  option (color F * ray F) * G.
Variable camera : Type.
Variable get_ray : camera -> F -> F -> G -> ray F * G.
Variable random_double : G -> F * G.

(** The collaborators of [main] over a state that carries, next to the
    state [G], a counter of the camera rays requested: [get_ray] advances
    it, the others leave it alone. *)
Definition tally_get_ray (c : camera) (u v : F) (ng : Z * G)
    : ray F * (Z * G) :=
  let (r, g') := get_ray c u v (snd ng) in (r, ((fst ng + 1)%Z, g')).

Definition tally_hit (w : hittable_list F) (r : ray F) (t_min t_max : F)
    (ng : Z * G) : option (hit_record F (material F)) * (Z * G) :=
  let (o, g') := hit w r t_min t_max (snd ng) in (o, (fst ng, g')).

Definition tally_scatter (m : material F) (r : ray F)
    (rec : hit_record F (material F)) (ng : Z * G)
    : option (color F * ray F) * (Z * G) :=
  let (o, g') := scatter m r rec (snd ng) in (o, (fst ng, g')).

Definition tally_random_double (ng : Z * G) : F * (Z * G) :=
  let (x, g') := random_double (snd ng) in (x, (fst ng, g')).

(** The process without the counter. *)
Definition untallied (st : process (Z * G)) : process G :=
  mk_process (snd (glob st)) (cout st) (cerr st).
End RayCounter.

Section Advances.
Variable G : Type.

(** A step on the counted process that does what [plain] does on the
    process without the counter, and advances the counter by [k]. *)
Definition advances (k : Z) (counted : process (Z * G) -> process (Z * G))
    (plain : process G -> process G) : Prop :=
  forall st : process (Z * G),
    untallied (counted st) = plain (untallied st)
    /\ fst (glob (counted st)) = (fst (glob st) + k)%Z.

End Advances.

(** A scene that answers only the interval the integrator uses. *)
Module Probe.

(** [Demo.hit] on the interval (0.001, +inf), and no hit on any other. *)
Definition picky_hit (w : Demo.scene) (r : ray float) (t_min t_max : float)
    (g : Demo.G) : option (hit_record float bool) * Demo.G :=
  if (PrimFloat.eqb t_min (lit 0.001) && PrimFloat.eqb t_max infinity)%bool
  then Demo.hit w r t_min t_max g
  else (None, g).

(** A material that halves the light and sends it straight up, or absorbs
    it. *)
Definition scatter_up (m : bool) (r : ray float) (rec : hit_record float bool)
    (g : Demo.G) : option (color float * ray float) * Demo.G :=
  if m then (Some (v3 0.5 0.5 0.5, mk_ray (p rec) (v3 0 1 0)), S g)
  else (None, S g).

End Probe.

(* ================================================================= *)
(** ** Binary64 values and rounding

    What is needed to reason about the doubles of [ray_color] beyond
    evaluating them: the value of a double as an integer multiple of
    2^-1074, and rounding to nearest, ties to even, as a function on such
    integers.  The lemmas of the second part tie both to the operations
    of the standard library's specification of binary64 ([SFadd],
    [SFsub], [SFmul]), which the primitive operations obey. *)

Section Binary64.
Local Open Scope Z_scope.

(** The value of a double in units of 2^-1074, the sign left out; 0 for an
    infinity and for NaN. *)
Definition sf_val (x : spec_float) : Z :=
  match x with
  | S754_finite _ m e => Z.pos m * 2 ^ (e + 1074)
  | _ => 0
  end.

(** A zero (of either sign) or a positive finite double. *)
Definition nonneg_sf (x : spec_float) : bool :=
  match x with
  | S754_zero _ | S754_finite false _ _ => true
  | _ => false
  end.

Definition fval (x : float) : Z := sf_val (Prim2SF x).
Definition fnonneg (x : float) : bool := nonneg_sf (Prim2SF x).

(** The exponent that binary64 gives a number of magnitude [z]: [fexp] of
    the standard library at precision 53 and least exponent -1074. *)
Definition fexp64 (z : Z) : Z := Z.max (z - 53) (-1074).

(** The mantissa [m] shifted right by [k] bits, with the round bit and the
    sticky bit of the bits shifted out. *)
Definition shr_spec (m k : Z) : shr_record :=
  Build_shr_record (m / 2 ^ k)
    (if k =? 0 then false else 2 ^ (k - 1) <=? m mod 2 ^ k)
    (if k =? 0 then false else negb (m mod 2 ^ (k - 1) =? 0)).

(** [X / 2^n] rounded to the nearest integer, ties to even. *)
Definition rne_shift (X n : Z) : Z :=
  let q := X / 2 ^ n in
  let r := X mod 2 ^ n in
  let h := 2 ^ (n - 1) in
  if r <? h then q else if h <? r then q + 1
  else if Z.even q then q else q + 1.

(** [rne K X] is the double nearest to [X * 2^-(1074 + K)] (ties to even),
    in units of [2^-1074]. *)
Definition rne (K X : Z) : Z :=
  let n := Z.max (Z.log2 X + 1 - 53) K in
  if n <=? 0 then X else rne_shift X n * 2 ^ (n - K).

(** A value that a double can hold: at most 53 significant bits, in units
    of [2^-1074]. *)
Definition representable (W : Z) : Prop :=
  exists mw j : Z, 0 <= mw < 2 ^ 53 /\ 0 <= j /\ W = mw * 2 ^ j.

(** A double between 0 and 1. *)
Definition in_unit (c : float) : bool := ((0 <=? c) && (c <=? 1))%float.

(** A colour whose components are doubles between 0 and 1. *)
Definition unit_color (c : color float) : bool :=
  in_unit (x c) && in_unit (y c) && in_unit (z c).

End Binary64.

(* ================================================================= *)
(** * Properties *)

(** ** Auxiliary facts *)

(** Two doubles that a comparison tells apart are different. *)
Lemma ltb_separates (a b c : float) :
  PrimFloat.ltb a c <> PrimFloat.ltb b c -> a <> b.
Proof. intros H E. apply H. rewrite E. reflexivity. Qed.

Lemma eqb_separates (a b c : float) :
  PrimFloat.eqb a c <> PrimFloat.eqb b c -> a <> b.
Proof. intros H E. apply H. rewrite E. reflexivity. Qed.

Lemma fold_left_pointwise (A B : Type) (f g : A -> B -> A) (l : list B) :
  (forall a b, f a b = g a b) ->
  forall a : A, fold_left f l a = fold_left g l a.
Proof.
  intros Hfg. induction l as [|b l IH]; intros a; simpl; [reflexivity|].
  rewrite Hfg. apply IH.
Qed.

Lemma string_app_assoc (a b c : string) :
  ((a ++ b) ++ c = a ++ (b ++ c))%string.
Proof. induction a; simpl; congruence. Qed.

Lemma string_app_nil_r (a : string) : (a ++ "")%string = a.
Proof. induction a; simpl; congruence. Qed.

(** *** The [for] loops *)

Section Loops.

Variable St : Type.
Variable body : Z -> St -> St.

(** [for (i = lo; i < lo + n; ++i)] visits [lo, lo+1, ..., lo+n-1]. *)
Lemma for_loop_up (n : nat) :
  forall (lo hi : Z) (st : St),
    hi = (lo + Z.of_nat n)%Z ->
    for_loop n (fun i => (i <? hi)%Z) Z.succ body lo st =
    fold_left (fun s i => body i s)
              (map (fun k => (lo + Z.of_nat k)%Z) (seq 0 n)) st.
Proof.
  induction n as [|n IH]; intros lo hi st Hhi; [reflexivity|].
  simpl. destruct (Z.ltb_spec lo hi) as [_|E]; [|lia].
  rewrite (IH (Z.succ lo) hi) by lia.
  rewrite Z.add_0_r. f_equal.
  rewrite <- seq_shift, map_map.
  apply map_ext. intros k. lia.
Qed.

(** [for (j = n - 1; j >= 0; --j)] visits [n-1, n-2, ..., 0]. *)
Lemma for_loop_down (n : nat) :
  forall st : St,
    for_loop n (fun j => (0 <=? j)%Z) Z.pred body (Z.of_nat n - 1)%Z st =
    fold_left (fun s j => body j s) (map Z.of_nat (rev (seq 0 n))) st.
Proof.
  induction n as [|n IH]; intros st; [reflexivity|].
  cbn [for_loop].
  replace (Z.of_nat (S n) - 1)%Z with (Z.of_nat n) by lia.
  destruct (Z.leb_spec 0 (Z.of_nat n)) as [_|E]; [|lia].
  replace (Z.pred (Z.of_nat n)) with (Z.of_nat n - 1)%Z by lia.
  rewrite IH, seq_S, rev_app_distr. reflexivity.
Qed.

Lemma for_loop_cols (w : Z) (st : St) :
  for_loop (Z.to_nat w) (fun i => (i <? w)%Z) Z.succ body 0%Z st =
  fold_left (fun s i => body i s) (cols_left_right w) st.
Proof.
  unfold cols_left_right.
  destruct (Z.le_gt_cases 0 w) as [Hw|Hw].
  - rewrite (@for_loop_up (Z.to_nat w) 0%Z w) by lia. reflexivity.
  - replace (Z.to_nat w) with 0%nat by lia. reflexivity.
Qed.

Lemma for_loop_rows (h : Z) (st : St) :
  for_loop (Z.to_nat h) (fun j => (0 <=? j)%Z) Z.pred body (h - 1)%Z st =
  fold_left (fun s j => body j s) (rows_top_down h) st.
Proof.
  unfold rows_top_down.
  destruct (Z.le_gt_cases 0 h) as [Hh|Hh].
  - rewrite <- (Z2Nat.id h Hh) at 2. apply for_loop_down.
  - replace (Z.to_nat h) with 0%nat by lia. reflexivity.
Qed.

End Loops.

Example rows_top_down_3 : rows_top_down 3 = [2; 1; 0]%Z.
Proof. reflexivity. Qed.

Example cols_left_right_3 : cols_left_right 3 = [0; 1; 2]%Z.
Proof. reflexivity. Qed.

(** *** Literals *)

(** At the [float] instance [lit] yields the double the compiler reads. *)
Example lit_float_samples :
  (lit 0.001 : float) = 0.001%float /\ (lit 0.5 : float) = 0.5%float
  /\ (lit 0.7 : float) = 0.7%float /\ (lit 1.0 : float) = 1%float
  /\ (lit (-1000.5) : float) = (-1000.5)%float
  /\ (lit (-0.49) : float) = (-0.49)%float
  /\ (aspect_ratio : float) = (16 / 9)%float.
Proof. repeat split; vm_compute; reflexivity. Qed.

Lemma image_height_float : image_height (F := float) = 450%Z.
Proof. vm_compute. reflexivity. Qed.

Lemma header_float :
  header (F := float)
  = ("P3" ++ nl ++ "800 450" ++ nl ++ "255" ++ nl)%string.
Proof. vm_compute. reflexivity. Qed.

(* ================================================================= *)
(** ** [ray.h] and [hit_sphere] *)

(** C7: for every ray built from an origin [o] and a direction [d] and for
    every [t], [at(t)] is [o + t * d], component by component.  [at] is a
    function of the ray and [t] alone, defined for every [t], and the ray's
    origin and direction read back as they were given. *)
Theorem ray_at_spec :
  forall (F : Type) (D : Double F) (o : point3 F) (d : vec3 F) (t : F),
    at_ (mk_ray o d) t = vadd o (smul t d)
    /\ at_ (mk_ray o d) t =
       mk_vec3 (x o + t * x d)%dbl (y o + t * y d)%dbl (z o + t * z d)%dbl
    /\ origin (mk_ray o d) = o
    /\ direction (mk_ray o d) = d.
Proof. intros. repeat split. Qed.

(** The code's result in terms of the two named roots. *)
Lemma hit_sphere_eq (F : Type) (D : Double F) (center : point3 F)
    (radius : F) (r : ray F) :
  hit_sphere center radius r =
  if (discriminant_of center radius r <? of_int 0)%dbl then no_hit
  else near_root center radius r.
Proof. reflexivity. Qed.

Section ExactSphere.

Local Open Scope R_scope.

(** A nonzero vector has a positive length. *)
Lemma length_pos (v : vec3 R) :
  v <> mk_vec3 0 0 0 -> 0 < length v.
Proof.
  intros Hv. unfold length, length_squared. simpl.
  apply sqrt_lt_R0.
  destruct v as [a b c]. simpl.
  destruct (Req_dec a 0) as [Ea|Ea]; [|nra].
  destruct (Req_dec b 0) as [Eb|Eb]; [|nra].
  destruct (Req_dec c 0) as [Ec|Ec]; [|nra].
  subst. exfalso. apply Hv. reflexivity.
Qed.

Lemma ltb_R_false (a b : R) : Exact.ltb a b = false -> b <= a.
Proof. unfold Exact.ltb. destruct (Rlt_dec a b); [discriminate | lra]. Qed.

(** Over the reals the value [hit_sphere] returns on a non-negative
    discriminant is a parameter at which the ray is on the sphere, and it is
    the smaller of the two such parameters. *)
Lemma hit_sphere_exact (center : point3 R) (radius : R) (r : ray R) :
  direction r <> mk_vec3 0 0 0 ->
  ltb (discriminant_of center radius r) (of_int 0) = false ->
  on_sphere center radius r (hit_sphere center radius r)
  /\ on_sphere center radius r (far_root center radius r)
  /\ hit_sphere center radius r <= far_root center radius r.
Proof.
  intros Hdir Hd.
  rewrite hit_sphere_eq, Hd.
  apply ltb_R_false in Hd. change (of_int 0) with 0 in Hd.
  pose proof (length_pos Hdir) as HL.
  assert (Ha : 0 < length_squared (direction r)).
  { change (length (direction r))
      with (R_sqrt.sqrt (length_squared (direction r))) in HL.
    destruct (Rle_lt_dec (length_squared (direction r)) 0) as [H|H];
      [|exact H].
    rewrite (sqrt_neg_0 _ H) in HL. lra. }
  clear HL Hdir.
  unfold on_sphere, near_root, far_root.
  change (@sqrt R Double_R) with R_sqrt.sqrt.
  pose proof (sqrt_sqrt _ Hd) as Hs.
  pose proof (sqrt_pos (discriminant_of center radius r)) as Hs0.
  set (s := R_sqrt.sqrt (discriminant_of center radius r)) in *.
  clearbody s. clear Hd.
  unfold discriminant_of in Hs.
  destruct r as [[ox oy oz] [dx dy dz]], center as [cx cy cz].
  unfold at_, vsub, vadd, smul, dot, length_squared, origin, direction in *.
  simpl in *.
  set (a := dx * dx + dy * dy + dz * dz) in *.
  set (hb := (ox - cx) * dx + (oy - cy) * dy + (oz - cz) * dz) in *.
  set (c := (ox - cx) * (ox - cx) + (oy - cy) * (oy - cy)
            + (oz - cz) * (oz - cz) - radius * radius) in *.
  assert (Hquad : forall t : R,
            a * t = - hb - s \/ a * t = - hb + s ->
            (ox + t * dx - cx) * (ox + t * dx - cx)
            + (oy + t * dy - cy) * (oy + t * dy - cy)
            + (oz + t * dz - cz) * (oz + t * dz - cz) = radius * radius).
  { intros t Ht.
    apply Rminus_diag_uniq. apply (Rmult_eq_reg_l a); [|lra].
    rewrite Rmult_0_r.
    replace (a * _) with ((a * t) * (a * t) + 2 * hb * (a * t) + a * c)
      by (unfold a, hb, c; ring).
    destruct Ht as [Ht|Ht]; rewrite Ht; nra. }
  repeat split.
  - apply Hquad. left. field. lra.
  - apply Hquad. right. field. lra.
  - unfold Rdiv. apply Rmult_le_compat_r.
    + left. apply Rinv_0_lt_compat. exact Ha.
    + lra.
Qed.

End ExactSphere.

(** C1: [hit_sphere] forms a = D.D, half_b = (O-C).D, c = |O-C|^2 - r^2 and
    the discriminant half_b^2 - a c; it returns the no-hit value -1.0 when
    the discriminant is negative and the smaller root
    (-half_b - sqrt disc) / a otherwise.  In exact arithmetic that value
    solves |O + t D - C|^2 = r^2 and is not above the other solution.  On
    the ray from (0,0,-5) along (0,0,1) and the unit sphere at the origin
    the routine, run on doubles, returns 4, which is a point of the sphere
    and the smaller of the two roots 4 and 6. *)
Theorem hit_sphere_spec :
  (forall (F : Type) (D : Double F) (center : point3 F) (radius : F)
          (r : ray F),
     let oc := vsub (origin r) center in
     let a := dot (direction r) (direction r) in
     let half_b := dot oc (direction r) in
     let c := (dot oc oc - radius * radius)%dbl in
     let disc := (half_b * half_b - a * c)%dbl in
     hit_sphere center radius r =
     if (disc <? of_int 0)%dbl then (- lit 1.0)%dbl
     else ((- half_b - sqrt disc) / a)%dbl)
  /\ (forall (center : point3 R) (radius : R) (r : ray R),
        direction r <> mk_vec3 0%R 0%R 0%R ->
        (discriminant_of center radius r <? of_int 0)%dbl = false ->
        on_sphere center radius r (hit_sphere center radius r)
        /\ on_sphere center radius r (far_root center radius r)
        /\ (hit_sphere center radius r <= far_root center radius r)%R)
  /\ hit_sphere Demo.sphere_center Demo.sphere_radius Demo.ray_in_front
     = 4%float
  /\ on_sphere Demo.sphere_center Demo.sphere_radius Demo.ray_in_front
       4%float
  /\ far_root Demo.sphere_center Demo.sphere_radius Demo.ray_in_front
     = 6%float.
Proof.
  split; [intros; reflexivity|].
  split; [exact hit_sphere_exact|].
  repeat split; vm_compute; reflexivity.
Qed.

(** C9: [hit_sphere] returns -1.0 on a negative discriminant and the near
    root in every other case, whatever its sign.  So there is a ray that
    meets the sphere ahead of its origin (at some t > 0) for which the
    result is negative, and one for which the result is exactly -1.0: the
    very value returned for a ray that misses the sphere. *)
Theorem hit_sphere_sentinel_ambiguous :
  (forall (F : Type) (D : Double F) (center : point3 F) (radius : F)
          (r : ray F),
     hit_sphere center radius r =
     if (discriminant_of center radius r <? of_int 0)%dbl then (- lit 1.0)%dbl
     else near_root center radius r)
  /\ (exists (r : ray float) (t : float),
        (0 <? t)%float = true
        /\ on_sphere Demo.sphere_center Demo.sphere_radius r t
        /\ (discriminant_of Demo.sphere_center Demo.sphere_radius r <? 0)%float
           = false
        /\ (hit_sphere Demo.sphere_center Demo.sphere_radius r <? 0)%float
           = true)
  /\ (exists (r : ray float) (t : float),
        (0 <? t)%float = true
        /\ on_sphere Demo.sphere_center Demo.sphere_radius r t
        /\ (discriminant_of Demo.sphere_center Demo.sphere_radius r <? 0)%float
           = false
        /\ hit_sphere Demo.sphere_center Demo.sphere_radius r = (-1)%float
        /\ exists r' : ray float,
             (discriminant_of Demo.sphere_center Demo.sphere_radius r'
                <? 0)%float = true
             /\ hit_sphere Demo.sphere_center Demo.sphere_radius r'
                = hit_sphere Demo.sphere_center Demo.sphere_radius r).
Proof.
  split; [intros; reflexivity|]. split.
  - exists Demo.ray_from_inside, 0.5%float.
    repeat split; vm_compute; reflexivity.
  - exists Demo.ray_from_center, 1%float.
    repeat split; try (vm_compute; reflexivity).
    exists Demo.ray_passing_by. split; vm_compute; reflexivity.
Qed.

(** The interval-taking routine of the design document reports no hit
    exactly when the discriminant is negative or neither root lies in the
    interval. *)
Lemma sphere_hit_none (F : Type) (D : Double F) (material : Type)
    (center : point3 F) (radius : F) (mat : material) (r : ray F)
    (t_min t_max : F) :
  sphere_hit center radius mat r t_min t_max = None <->
  ((discriminant_of center radius r <? of_int 0)%dbl = true
   \/ (in_range t_min t_max (near_root center radius r) = false
       /\ in_range t_min t_max (far_root center radius r) = false)).
Proof.
  unfold sphere_hit.
  destruct (discriminant_of center radius r <? of_int 0)%dbl.
  - split; [intros _; left; reflexivity | reflexivity].
  - cbv zeta.
    destruct (in_range t_min t_max (near_root center radius r)).
    + split; [discriminate|]. intros [H|[H _]]; discriminate.
    + destruct (in_range t_min t_max (far_root center radius r)).
      * split; [discriminate|]. intros [H|[_ H]]; discriminate.
      * split; [intros _; right; split; reflexivity | reflexivity].
Qed.

(** A hit it reports is at one of the two roots, inside the interval; at
    the far root only when the near root is outside. *)
Lemma sphere_hit_some (F : Type) (D : Double F) (material : Type)
    (center : point3 F) (radius : F) (mat : material) (r : ray F)
    (t_min t_max : F) (rec : hit_record F material) :
  sphere_hit center radius mat r t_min t_max = Some rec ->
  rec = sphere_record center radius mat r (t rec)
  /\ in_range t_min t_max (t rec) = true
  /\ (t rec = near_root center radius r
      \/ (t rec = far_root center radius r
          /\ in_range t_min t_max (near_root center radius r) = false)).
Proof.
  unfold sphere_hit.
  destruct (discriminant_of center radius r <? of_int 0)%dbl;
    [discriminate|]. cbv zeta.
  destruct (in_range t_min t_max (near_root center radius r)) eqn:E1.
  - intros H. injection H as <-. simpl. repeat split; [exact E1 | left; reflexivity].
  - destruct (in_range t_min t_max (far_root center radius r)) eqn:E2;
      [|discriminate].
    intros H. injection H as <-. simpl.
    repeat split; [exact E2 | right; split; reflexivity].
Qed.

(** C2: for every ray and every interval (t_min, t_max), when the
    discriminant is not negative and the near root t1 is outside the
    interval, the sphere's intersection routine goes on to the larger root
    t2 = (-half_b + sqrt disc) / a: it reports the hit at t2 when t2 lies
    in the interval, and it reports no hit only when t2 does not, that is,
    when neither root lies in the interval.  The routine is the
    interval-taking [sphere::hit] of the design document. *)
Theorem sphere_hit_far_root :
  forall (F : Type) (D : Double F) (material : Type) (center : point3 F)
         (radius : F) (mat : material) (r : ray F) (t_min t_max : F),
    (discriminant_of center radius r <? of_int 0)%dbl = false ->
    in_range t_min t_max (near_root center radius r) = false ->
    sphere_hit center radius mat r t_min t_max =
      (if in_range t_min t_max (far_root center radius r)
       then Some (sphere_record center radius mat r
                    (far_root center radius r))
       else None)
    /\ (sphere_hit center radius mat r t_min t_max = None <->
        in_range t_min t_max (far_root center radius r) = false).
Proof.
  intros F D material center radius mat r t_min t_max Hd H1.
  assert (E : sphere_hit center radius mat r t_min t_max =
              if in_range t_min t_max (far_root center radius r)
              then Some (sphere_record center radius mat r
                           (far_root center radius r))
              else None).
  { unfold sphere_hit. rewrite Hd. cbv zeta. rewrite H1. reflexivity. }
  split; [exact E|].
  rewrite E.
  destruct (in_range t_min t_max (far_root center radius r));
    split; intros H; try reflexivity; discriminate.
Qed.

Lemma sphere_hit_far_root_witness :
  sphere_hit Demo.sphere_center Demo.sphere_radius tt Demo.ray_from_inside
    (lit 0.001) infinity =
    (if in_range (lit 0.001) infinity
          (far_root Demo.sphere_center Demo.sphere_radius
             Demo.ray_from_inside)
     then Some (sphere_record Demo.sphere_center Demo.sphere_radius tt
                  Demo.ray_from_inside
                  (far_root Demo.sphere_center Demo.sphere_radius
                     Demo.ray_from_inside))
     else None)
  /\ (sphere_hit Demo.sphere_center Demo.sphere_radius tt
        Demo.ray_from_inside (lit 0.001) infinity = None <->
      in_range (lit 0.001) infinity
        (far_root Demo.sphere_center Demo.sphere_radius
           Demo.ray_from_inside) = false).
Proof.
  apply (@sphere_hit_far_root float Double_float unit Demo.sphere_center
           Demo.sphere_radius tt Demo.ray_from_inside (lit 0.001) infinity).
  - vm_compute. reflexivity.
  - vm_compute. reflexivity.
Defined.

(** On the unit sphere and the ray that starts halfway between its center
    and its surface, with the interval (0.001, +inf) of the integrator:
    the near root -1.5 is outside the interval, the far root 0.5 is inside
    it, and the routine reports the hit at 0.5, at the point (0, 0, 1),
    met from inside.  With an interval that ends before 0.5 it reports no
    hit.  [hit_sphere] of [main.cpp], which takes no interval, returns -1.5
    on the same ray. *)
Example sphere_hit_from_inside :
  near_root Demo.sphere_center Demo.sphere_radius Demo.ray_from_inside
  = (-1.5)%float
  /\ far_root Demo.sphere_center Demo.sphere_radius Demo.ray_from_inside
     = 0.5%float
  /\ sphere_hit Demo.sphere_center Demo.sphere_radius tt
       Demo.ray_from_inside (lit 0.001) infinity
     = Some (mk_hit_record (mk_vec3 0%float 0%float 1%float)
               (mk_vec3 (-0)%float (-0)%float (-1)%float) tt 0.5%float
               false)
  /\ sphere_hit Demo.sphere_center Demo.sphere_radius tt
       Demo.ray_from_inside (lit 0.001) (lit 0.25)
     = None
  /\ hit_sphere Demo.sphere_center Demo.sphere_radius Demo.ray_from_inside
     = (-1.5)%float.
Proof. repeat split; vm_compute; reflexivity. Qed.

(* ================================================================= *)
(** ** The integrator *)

Section IntegratorFacts.

Context {F : Type} {D : Double F}.
Variables G hittable material : Type.
Variable hit :
  hittable -> ray F -> F -> F -> G -> option (hit_record F material) * G.
Variable scatter :
  material -> ray F -> hit_record F material -> G ->
  option (color F * ray F) * G.
Variable infinity : F.
Local Open Scope dbl_scope.

(** More fuel than the depth changes nothing. *)
Lemma ray_color_fuel_enough (fuel : nat) :
  forall (r : ray F) (world : hittable) (depth : Z) (g : G),
    (Z.to_nat depth <= fuel)%nat ->
    ray_color_fuel hit scatter infinity fuel r world depth g
    = ray_color hit scatter infinity r world depth g.
Proof.
  unfold ray_color.
  induction fuel as [|fuel IH]; intros r world depth g Hle.
  - replace (Z.to_nat depth) with 0%nat by lia. reflexivity.
  - destruct (Z.to_nat depth) as [|n] eqn:En.
    + simpl. destruct (depth <=? 0)%Z eqn:E; [reflexivity | lia].
    + simpl. destruct (depth <=? 0)%Z; [reflexivity|].
      destruct (hit world r (lit 0.001) infinity g) as [[rec|] g1];
        [|reflexivity].
      destruct (scatter (mat_ptr rec) r rec g1) as [[[att sc]|] g2];
        [|reflexivity].
      rewrite (IH sc world (depth - 1)%Z g2) by lia.
      replace n with (Z.to_nat (depth - 1)) by lia. reflexivity.
Qed.

(** The equation of [ray_color], as the source has it. *)
Lemma ray_color_eq (r : ray F) (world : hittable) (depth : Z) (g : G) :
  ray_color hit scatter infinity r world depth g =
  if (depth <=? 0)%Z then (black, g)
  else
    match hit world r (lit 0.001) infinity g with
    | (Some rec, g1) =>
        match scatter (mat_ptr rec) r rec g1 with
        | (Some (attenuation, scattered), g2) =>
            let (c, g3) :=
              ray_color hit scatter infinity scattered world (depth - 1) g2
            in
            (vmul attenuation c, g3)
        | (None, g2) => (black, g2)
        end
    | (None, g1) =>
        let unit_direction := unit_vector (direction r) in
        let t := lit 0.5 * (y unit_direction + lit 1.0) in
        (vadd (smul (lit 1.0 - t) (v3 1.0 1.0 1.0))
              (smul t (v3 0.5 0.7 1.0)), g1)
    end.
Proof.
  unfold ray_color at 1.
  destruct (Z.to_nat depth) as [|n] eqn:En.
  - simpl. destruct (depth <=? 0)%Z eqn:E; [reflexivity | lia].
  - simpl. destruct (depth <=? 0)%Z; [reflexivity|].
    destruct (hit world r (lit 0.001) infinity g) as [[rec|] g1];
      [|reflexivity].
    destruct (scatter (mat_ptr rec) r rec g1) as [[[att sc]|] g2];
      [|reflexivity].
    rewrite ray_color_fuel_enough by lia. reflexivity.
Qed.

(** C3: for every ray, scene and outside state, [ray_color] with
    [depth <= 0] returns exactly the black colour (0,0,0), and leaves the
    state as it was: neither the scene nor a material is consulted. *)
Theorem ray_color_depth_exhausted (r : ray F) (world : hittable)
    (depth : Z) (g : G) :
  (depth <= 0)%Z ->
  ray_color hit scatter infinity r world depth g =
  (mk_vec3 (of_int 0) (of_int 0) (of_int 0), g).
Proof.
  intros Hd. rewrite ray_color_eq.
  destruct (depth <=? 0)%Z eqn:E; [reflexivity | lia].
Qed.

(** C4: with [depth > 0] and a nearest hit [rec], [ray_color] calls the
    scatter of the hit's material.  If that yields an attenuation and a
    scattered ray, the result is the component-wise product of the
    attenuation and [ray_color] of the scattered ray at [depth - 1]; if it
    yields nothing (absorption), the result is black. *)
Theorem ray_color_on_hit (r : ray F) (world : hittable) (depth : Z)
    (g g1 : G) (rec : hit_record F material) :
  (0 < depth)%Z ->
  hit world r (lit 0.001) infinity g = (Some rec, g1) ->
  ray_color hit scatter infinity r world depth g =
  match scatter (mat_ptr rec) r rec g1 with
  | (Some (attenuation, scattered), g2) =>
      (vmul attenuation
         (fst (ray_color hit scatter infinity scattered world
                 (depth - 1) g2)),
       snd (ray_color hit scatter infinity scattered world (depth - 1) g2))
  | (None, g2) => (mk_vec3 (of_int 0) (of_int 0) (of_int 0), g2)
  end.
Proof.
  intros Hd Hh. rewrite ray_color_eq.
  destruct (depth <=? 0)%Z eqn:E; [lia|].
  rewrite Hh.
  destruct (scatter (mat_ptr rec) r rec g1) as [[[att sc]|] g2];
    [|reflexivity].
  destruct (ray_color hit scatter infinity sc world (depth - 1) g2).
  reflexivity.
Qed.

(** C5: with [depth > 0] and no hit, [ray_color] returns
    (1 - t) * (1,1,1) + t * (0.5,0.7,1.0), where
    t = 0.5 * (unit_direction.y + 1) and unit_direction is the normalized
    direction of the ray. *)
Theorem ray_color_on_miss (r : ray F) (world : hittable) (depth : Z)
    (g g1 : G) :
  (0 < depth)%Z ->
  hit world r (lit 0.001) infinity g = (None, g1) ->
  let unit_direction := unit_vector (direction r) in
  let t := lit 0.5 * (y unit_direction + lit 1.0) in
  ray_color hit scatter infinity r world depth g =
  (vadd (smul (lit 1.0 - t) (mk_vec3 (lit 1.0) (lit 1.0) (lit 1.0)))
        (smul t (mk_vec3 (lit 0.5) (lit 0.7) (lit 1.0))), g1).
Proof.
  intros Hd Hh. cbv zeta. rewrite ray_color_eq.
  destruct (depth <=? 0)%Z eqn:E; [lia|].
  rewrite Hh. reflexivity.
Qed.

Lemma ray_color_fuel_log (fuel : nat) :
  forall (r : ray F) (world : hittable) (depth : Z)
         (log : list (F * F)) (g : G),
  exists q : list (F * F),
    ray_color_fuel (logged_hit hit) (logged_scatter scatter) infinity
      fuel r world depth (log, g) =
      (fst (ray_color_fuel hit scatter infinity fuel r world depth g),
       (log ++ q,
        snd (ray_color_fuel hit scatter infinity fuel r world depth g)))
    /\ Forall (fun iv => iv = (lit 0.001, infinity)) q
    /\ (List.length q <= fuel)%nat
    /\ ((0 < depth)%Z -> (0 < fuel)%nat -> q <> []).
Proof.
  induction fuel as [|fuel IH]; intros r world depth log g.
  - exists []. simpl. destruct (depth <=? 0)%Z; simpl;
      rewrite app_nil_r; repeat split; auto; lia.
  - simpl. destruct (depth <=? 0)%Z eqn:E.
    + exists []. simpl. rewrite app_nil_r. repeat split; auto; lia.
    + unfold logged_hit at 1. simpl.
      destruct (hit world r (lit 0.001) infinity g) as [[rec|] g1].
      * unfold logged_scatter at 1. simpl.
        destruct (scatter (mat_ptr rec) r rec g1) as [[[att sc]|] g2].
        -- destruct (IH sc world (depth - 1)%Z
                        (log ++ [(lit 0.001, infinity)]) g2)
             as (q & Hq & Hall & Hlen & _).
           rewrite Hq.
           destruct (ray_color_fuel hit scatter infinity fuel sc world
                       (depth - 1) g2) as [c g3].
           exists ((lit 0.001, infinity) :: q). simpl.
           rewrite <- app_assoc. simpl.
           repeat split; auto; try lia. discriminate.
        -- exists [(lit 0.001, infinity)]. simpl.
           repeat split; auto; try lia. discriminate.
      * exists [(lit 0.001, infinity)]. simpl.
        repeat split; auto; try lia. discriminate.
Qed.

(** C6: evaluated against a scene that logs the interval of each query it
    receives, [ray_color] computes the same colour and final state as
    against the plain scene, and every interval it adds to the log is
    (0.001, infinity): at every recursion depth, for every ray.  It asks at
    most [depth] times, and at least once unless [depth <= 0]. *)
Theorem ray_color_queries (r : ray F) (world : hittable) (depth : Z)
    (log : list (F * F)) (g : G) :
  exists q : list (F * F),
    ray_color (logged_hit hit) (logged_scatter scatter) infinity
      r world depth (log, g) =
      (fst (ray_color hit scatter infinity r world depth g),
       (log ++ q, snd (ray_color hit scatter infinity r world depth g)))
    /\ Forall (fun iv => iv = (lit 0.001, infinity)) q
    /\ (List.length q <= Z.to_nat depth)%nat
    /\ (q = [] <-> (depth <= 0)%Z).
Proof.
  unfold ray_color.
  destruct (ray_color_fuel_log (Z.to_nat depth) r world depth log g)
    as (q & Hq & Hall & Hlen & Hne).
  exists q. repeat split; auto.
  - intros ->. destruct (Z_le_gt_dec depth 0) as [H|H]; [exact H|].
    exfalso. apply Hne; [lia | lia | reflexivity].
  - intros Hd. destruct q as [|iv q]; [reflexivity|].
    simpl in Hlen. lia.
Qed.

End IntegratorFacts.

(** *** The integrator on the small scenes *)

Example ray_color_pane :
  ray_color Demo.hit Demo.scatter infinity Demo.ray_in_front Demo.Pane 3 0%nat
  = (mk_vec3 0.25%float 0.34999999999999998%float 0.5%float, 2%nat).
Proof. vm_compute. reflexivity. Qed.

Example ray_color_shiny_log :
  ray_color (logged_hit Demo.hit) (logged_scatter Demo.scatter) infinity
    Demo.ray_in_front Demo.Shiny 3 ([], 0%nat)
  = (mk_vec3 0%float 0%float 0%float,
     ([(0.001%float, infinity); (0.001%float, infinity);
       (0.001%float, infinity)], 6%nat)).
Proof. vm_compute. reflexivity. Qed.

Lemma ray_color_depth_exhausted_witness :
  ray_color Demo.hit Demo.scatter infinity Demo.ray_in_front Demo.Shiny 0
    0%nat
  = (mk_vec3 (of_int 0) (of_int 0) (of_int 0), 0%nat).
Proof.
  apply (@ray_color_depth_exhausted float Double_float Demo.G Demo.scene bool
           Demo.hit Demo.scatter infinity Demo.ray_in_front Demo.Shiny 0
           0%nat).
  lia.
Defined.

Lemma ray_color_on_hit_witness :
  ray_color Demo.hit Demo.scatter infinity Demo.ray_in_front Demo.Pane 3 0%nat
  = (vmul (v3 0.5 0.5 0.5)
       (fst (ray_color Demo.hit Demo.scatter infinity
               (mk_ray (at_ Demo.ray_in_front (lit 1)) (v3 0 1 0))
               Demo.Pane (3 - 1) 2%nat)),
     snd (ray_color Demo.hit Demo.scatter infinity
            (mk_ray (at_ Demo.ray_in_front (lit 1)) (v3 0 1 0))
            Demo.Pane (3 - 1) 2%nat)).
Proof.
  apply (@ray_color_on_hit float Double_float Demo.G Demo.scene bool
           Demo.hit Demo.scatter infinity Demo.ray_in_front Demo.Pane 3
           0%nat 1%nat
           (mk_hit_record (at_ Demo.ray_in_front (lit 1)) (v3 0 1 0) true
              (lit 1) true)).
  - lia.
  - reflexivity.
Defined.

Lemma ray_color_on_miss_witness :
  ray_color Demo.hit Demo.scatter infinity Demo.ray_in_front Demo.Empty 3
    0%nat
  = (vadd
       (smul (lit 1.0
              - lit 0.5
                * (y (unit_vector (direction Demo.ray_in_front)) + lit 1.0))
          (mk_vec3 (lit 1.0) (lit 1.0) (lit 1.0)))
       (smul (lit 0.5
              * (y (unit_vector (direction Demo.ray_in_front)) + lit 1.0))
          (mk_vec3 (lit 0.5) (lit 0.7) (lit 1.0))), 0%nat)%dbl.
Proof.
  apply (@ray_color_on_miss float Double_float Demo.G Demo.scene bool
           Demo.hit Demo.scatter infinity Demo.ray_in_front Demo.Empty 3
           0%nat 0%nat).
  - lia.
  - reflexivity.
Defined.

(* ================================================================= *)
(** ** Binary64 arithmetic *)

Section Binary64Facts.
Local Open Scope Z_scope.

Lemma pow2_pos (k : Z) : 0 <= k -> 0 < 2 ^ k.
Proof. intros. apply Z.pow_pos_nonneg; lia. Qed.

Lemma digits2_log2 (m : positive) :
  Z.pos (digits2_pos m) = Z.log2 (Z.pos m) + 1.
Proof.
  assert (H : forall k : positive, digits2_pos k = Pos.size k)
    by (intros k; induction k; simpl; congruence).
  rewrite H. destruct m; simpl; lia.
Qed.

Lemma digits2_bounds (m : positive) :
  2 ^ (Z.pos (digits2_pos m) - 1) <= Z.pos m < 2 ^ Z.pos (digits2_pos m).
Proof.
  rewrite digits2_log2.
  pose proof (Z.log2_spec (Z.pos m) ltac:(lia)) as H.
  replace (Z.log2 (Z.pos m) + 1 - 1) with (Z.log2 (Z.pos m)) by lia.
  exact H.
Qed.

(** ** Shifting right, with the round and sticky bits *)

Lemma shr_1_nonneg (a : Z) (r s : bool) :
  0 <= a ->
  shr_1 (Build_shr_record a r s) = Build_shr_record (a / 2) (Z.odd a) (r || s).
Proof.
  intros Ha. destruct a as [|p|p]; [reflexivity| |lia].
  destruct p as [p|p|]; simpl shr_1.
  - f_equal. rewrite Pos2Z.inj_xI.
    apply Z.div_unique with (r := 1); lia.
  - f_equal. rewrite Pos2Z.inj_xO.
    apply Z.div_unique with (r := 0); lia.
  - reflexivity.
Qed.

Lemma mod_pow2_split (m k : Z) :
  0 <= k ->
  m mod 2 ^ (k + 1) = m mod 2 ^ k + 2 ^ k * (if Z.odd (m / 2 ^ k) then 1 else 0).
Proof.
  intros Hk. pose proof (@pow2_pos k Hk).
  rewrite Z.pow_add_r by lia. change (2 ^ 1) with 2.
  rewrite Z.rem_mul_r by lia. rewrite Zmod_odd. reflexivity.
Qed.

Lemma shr_1_spec (m k : Z) :
  0 <= m -> 0 <= k -> shr_1 (shr_spec m k) = shr_spec m (k + 1).
Proof.
  intros Hm Hk. pose proof (@pow2_pos k Hk) as Hp.
  unfold shr_spec. rewrite shr_1_nonneg by (apply Z.div_pos; lia).
  replace (k + 1 =? 0) with false by (symmetry; apply Z.eqb_neq; lia).
  replace (k + 1 - 1) with k by lia.
  f_equal.
  - rewrite Z.div_div by lia. rewrite Z.pow_add_r by lia. reflexivity.
  - rewrite mod_pow2_split by lia.
    pose proof (Z.mod_pos_bound m (2 ^ k) Hp).
    destruct (Z.odd (m / 2 ^ k)).
    + symmetry. apply Z.leb_le. lia.
    + symmetry. apply Z.leb_gt. lia.
  - destruct (Z.eqb_spec k 0) as [-> | Hk0].
    + simpl. change (2 ^ 0) with 1. rewrite Z.mod_1_r. reflexivity.
    + assert (E : m mod 2 ^ k =
                  m mod 2 ^ (k - 1)
                  + 2 ^ (k - 1) * (if Z.odd (m / 2 ^ (k - 1)) then 1 else 0)).
      { rewrite <- mod_pow2_split by lia. f_equal. f_equal. lia. }
      rewrite E.
      pose proof (@pow2_pos (k - 1) ltac:(lia)) as Hp1.
      pose proof (Z.mod_pos_bound m (2 ^ (k - 1)) Hp1).
      set (lo := m mod 2 ^ (k - 1)) in *.
      set (h := 2 ^ (k - 1)) in *.
      destruct (Z.odd (m / h)).
      * destruct (Z.leb_spec h (lo + h * 1)); [|lia].
        destruct (Z.eqb_spec (lo + h * 1) 0); [lia|]. reflexivity.
      * destruct (Z.leb_spec h (lo + h * 0)); [lia|].
        replace (lo + h * 0) with lo by lia. reflexivity.
Qed.

Lemma iter_shr_spec (p : positive) :
  forall m k : Z, 0 <= m -> 0 <= k ->
    SpecFloat.iter_pos shr_1 p (shr_spec m k) = shr_spec m (k + Z.pos p).
Proof.
  induction p as [p IH|p IH|]; intros m k Hm Hk; cbn [SpecFloat.iter_pos].
  - rewrite shr_1_spec, IH, IH by lia. f_equal. lia.
  - rewrite IH, IH by lia. f_equal. lia.
  - apply shr_1_spec; assumption.
Qed.

Lemma shr_spec_0 (m : Z) : shr_spec m 0 = Build_shr_record m false false.
Proof. unfold shr_spec. simpl. rewrite Z.div_1_r. reflexivity. Qed.

(** ** Rounding to nearest, ties to even *)

Lemma rne_shr (m k : Z) :
  0 <= m -> 0 < k ->
  round_nearest_even (shr_m (shr_spec m k))
    (loc_of_shr_record (shr_spec m k)) = rne_shift m k.
Proof.
  intros Hm Hk. unfold shr_spec, rne_shift.
  replace (k =? 0) with false by (symmetry; apply Z.eqb_neq; lia).
  cbn [shr_m loc_of_shr_record].
  assert (E : m mod 2 ^ k =
              m mod 2 ^ (k - 1)
              + 2 ^ (k - 1) * (if Z.odd (m / 2 ^ (k - 1)) then 1 else 0)).
  { rewrite <- mod_pow2_split by lia. f_equal. f_equal. lia. }
  rewrite E.
  pose proof (@pow2_pos (k - 1) ltac:(lia)) as Hp1.
  pose proof (Z.mod_pos_bound m (2 ^ (k - 1)) Hp1).
  set (lo := m mod 2 ^ (k - 1)) in *.
  set (h := 2 ^ (k - 1)) in *.
  destruct (Z.odd (m / h)).
  - destruct (Z.leb_spec h (lo + h * 1)); [|lia].
    destruct (Z.ltb_spec (lo + h * 1) h); [lia|].
    destruct (Z.eqb_spec lo 0); simpl.
    + destruct (Z.ltb_spec h (lo + h * 1)); [lia|]. reflexivity.
    + destruct (Z.ltb_spec h (lo + h * 1)); [|lia]. reflexivity.
  - destruct (Z.leb_spec h (lo + h * 0)); [lia|].
    destruct (Z.ltb_spec (lo + h * 0) h); [|lia].
    destruct (Z.eqb_spec lo 0); reflexivity.
Qed.

(** ** [binary_round_aux] on an exact positive mantissa *)

Lemma fexp_eq (z : Z) : fexp prec emax z = fexp64 z.
Proof. reflexivity. Qed.

Lemma shr_fexp_exact (m : positive) (e : Z) :
  shr_fexp prec emax (Z.pos m) e loc_Exact =
  if 0 <? fexp64 (Z.pos (digits2_pos m) + e) - e
  then (shr_spec (Z.pos m) (fexp64 (Z.pos (digits2_pos m) + e) - e),
        fexp64 (Z.pos (digits2_pos m) + e))
  else (Build_shr_record (Z.pos m) false false, e).
Proof.
  unfold shr_fexp. rewrite fexp_eq. cbn [Zdigits2 shr_record_of_loc].
  set (n := fexp64 (Z.pos (digits2_pos m) + e) - e).
  unfold shr. destruct n as [|p|p] eqn:En.
  - reflexivity.
  - replace (0 <? Z.pos p) with true by (symmetry; apply Z.ltb_lt; lia).
    rewrite <- shr_spec_0, iter_shr_spec by lia. f_equal. f_equal. lia. 
  - reflexivity.
Qed.

Lemma shr_fexp_zero (e : Z) :
  -1074 <= e ->
  shr_fexp prec emax 0 e loc_Exact = (Build_shr_record 0 false false, e).
Proof.
  intros He. unfold shr_fexp. rewrite fexp_eq. cbn [Zdigits2 shr_record_of_loc].
  unfold shr, fexp64.
  destruct (Z.max (0 + e - 53) (-1074) - e) as [|p|p] eqn:En; try reflexivity.
  lia.
Qed.

Lemma rne_shift_bounds (X n : Z) :
  0 <= X -> 0 < n ->
  X / 2 ^ n <= rne_shift X n <= X / 2 ^ n + 1.
Proof.
  intros HX Hn. unfold rne_shift.
  destruct (_ <? _); [lia|]. destruct (_ <? _); [lia|].
  destruct (Z.even _); lia.
Qed.

Lemma bra_exact (s : bool) (m : positive) (e : Z) :
  Z.pos (digits2_pos m) + e <= 900 -> e <= 900 ->
  exists z : spec_float,
    binary_round_aux prec emax s (Z.pos m) e loc_Exact = z
    /\ (z = S754_zero s \/ exists m' e', z = S754_finite s m' e')
    /\ sf_val z =
       if 0 <? fexp64 (Z.pos (digits2_pos m) + e) - e
       then rne_shift (Z.pos m) (fexp64 (Z.pos (digits2_pos m) + e) - e)
            * 2 ^ (fexp64 (Z.pos (digits2_pos m) + e) + 1074)
       else Z.pos m * 2 ^ (e + 1074).
Proof.
  intros Hd He.
  pose proof (digits2_bounds m) as Hm.
  set (d := Z.pos (digits2_pos m)) in *.
  set (E := fexp64 (d + e)).
  assert (HE : -1074 <= E /\ d + e - 53 <= E /\ E <= 900)
    by (unfold E, fexp64; lia).
  unfold binary_round_aux. rewrite shr_fexp_exact. fold d. fold E.
  destruct (Z.ltb_spec 0 (E - e)) as [Hn|Hn].
  - (* the mantissa is shifted right by n = E - e *)
    rewrite rne_shr by lia.
    pose proof (@rne_shift_bounds (Z.pos m) (E - e) ltac:(lia) Hn) as Hr.
    assert (Hq : Z.pos m / 2 ^ (E - e) < 2 ^ 53).
    { apply Z.div_lt_upper_bound; [apply pow2_pos; lia|].
      rewrite <- Z.pow_add_r by lia.
      apply Z.lt_le_trans with (2 ^ d); [lia|].
      apply Z.pow_le_mono_r; lia. }
    assert (Hq0 : 0 <= Z.pos m / 2 ^ (E - e))
      by (apply Z.div_pos; [lia | apply pow2_pos; lia]).
    destruct (rne_shift (Z.pos m) (E - e)) as [|p1|p1] eqn:Er; [| |lia].
    + rewrite shr_fexp_zero by lia. cbn [shr_m].
      eexists. split; [reflexivity|]. split; [left; reflexivity|].
      simpl. reflexivity.
    + rewrite shr_fexp_exact.
      pose proof (digits2_bounds p1) as Hp1.
      set (d1 := Z.pos (digits2_pos p1)) in *.
      assert (Hd1 : d1 <= 54).
      { destruct (Z.le_gt_cases d1 54) as [H|H]; [exact H|exfalso].
        assert (2 ^ 54 <= 2 ^ (d1 - 1)) by (apply Z.pow_le_mono_r; lia).
        lia. }
      destruct (Z.ltb_spec 0 (fexp64 (d1 + E) - E)) as [Hn2|Hn2].
      * assert (d1 = 54) by (unfold fexp64 in Hn2; lia).
        assert (Z.pos p1 = 2 ^ 53).
        { replace (d1 - 1) with 53 in Hp1 by lia. lia. }
        replace (fexp64 (d1 + E)) with (E + 1) by (unfold fexp64; lia).
        replace (E + 1 - E) with 1 by lia.
        unfold shr_spec. cbn [shr_m]. rewrite H0.
        change (2 ^ 53 / 2 ^ 1) with (Z.pos (2 ^ 52)).
        replace (E + 1 <=? emax - prec) with true
          by (symmetry; apply Z.leb_le; change (emax - prec) with 971; lia).
        eexists. split; [reflexivity|]. split; [right; eauto|].
        cbn [sf_val]. replace (E + 1 + 1074) with (1 + (E + 1074)) by lia.
        rewrite Z.pow_add_r by lia.
        change (Z.pos (2 ^ 52)) with (2 ^ 52). change (2 ^ 1) with 2.
        change (2 ^ 53) with (2 ^ 52 * 2). ring.
      * cbn [shr_m].
        replace (E <=? emax - prec) with true
          by (symmetry; apply Z.leb_le; change (emax - prec) with 971; lia).
        eexists. split; [reflexivity|]. split; [right; eauto|].
        reflexivity.
  - (* no shift *)
    cbn [shr_m loc_of_shr_record round_nearest_even].
    rewrite shr_fexp_exact. fold d. fold E.
    destruct (Z.ltb_spec 0 (E - e)) as [Hn'|_]; [lia|].
    cbn [shr_m].
    replace (e <=? emax - prec) with true
      by (symmetry; apply Z.leb_le; change (emax - prec) with 971; lia).
    eexists. split; [reflexivity|]. split; [right; eauto|].
    reflexivity.
Qed.

(** ** The rounding function on scaled integers *)

Lemma rne_shift_scale (m n c : Z) :
  0 <= m -> 0 < n -> 0 <= c -> rne_shift (m * 2 ^ c) (n + c) = rne_shift m n.
Proof.
  intros Hm Hn Hc. unfold rne_shift.
  pose proof (@pow2_pos c Hc) as Pc.
  pose proof (@pow2_pos n ltac:(lia)) as Pn.
  pose proof (@pow2_pos (n - 1) ltac:(lia)) as Pn1.
  rewrite (Z.pow_add_r 2 n c) by lia.
  replace (n + c - 1) with ((n - 1) + c) by lia.
  rewrite (Z.pow_add_r 2 (n - 1) c) by lia.
  rewrite Z.div_mul_cancel_r by lia.
  rewrite Z.mul_mod_distr_r by lia.
  set (r := m mod 2 ^ n). set (h := 2 ^ (n - 1)). set (P := 2 ^ c) in *.
  destruct (Z.ltb_spec r h), (Z.ltb_spec (r * P) (h * P)); try nia;
    try reflexivity.
  destruct (Z.ltb_spec h r), (Z.ltb_spec (h * P) (r * P)); try nia;
    reflexivity.
Qed.

Lemma rne_shift_multiple (m n c : Z) :
  0 <= m -> 0 < n <= c -> rne_shift (m * 2 ^ c) n = m * 2 ^ (c - n).
Proof.
  intros Hm Hn.
  pose proof (@pow2_pos n ltac:(lia)) as Pn.
  pose proof (@pow2_pos (n - 1) ltac:(lia)) as Pn1.
  assert (E : m * 2 ^ c = m * 2 ^ (c - n) * 2 ^ n).
  { rewrite <- Z.mul_assoc, <- Z.pow_add_r by lia. f_equal. f_equal. lia. }
  rewrite E. unfold rne_shift.
  rewrite Z.div_mul, Z.mod_mul by lia.
  destruct (Z.ltb_spec 0 (2 ^ (n - 1))); [reflexivity | lia].
Qed.

Lemma bra_rne (s : bool) (m : positive) (e K : Z) :
  0 <= K -> 0 <= e + 1074 + K ->
  Z.pos (digits2_pos m) + e <= 900 -> e <= 900 ->
  exists z : spec_float,
    binary_round_aux prec emax s (Z.pos m) e loc_Exact = z
    /\ (z = S754_zero s \/ exists m' e', z = S754_finite s m' e')
    /\ sf_val z = rne K (Z.pos m * 2 ^ (e + 1074 + K)).
Proof.
  intros HK Hc Hd He.
  destruct (@bra_exact s m e Hd He) as (z & Hz & Hs & Hv).
  exists z. split; [exact Hz|]. split; [exact Hs|]. rewrite Hv. clear Hv Hz Hs.
  rewrite digits2_log2 in *.
  set (c := e + 1074 + K) in *.
  set (l := Z.log2 (Z.pos m)) in *.
  assert (Hl : 0 <= l) by apply Z.log2_nonneg.
  unfold rne. rewrite Z.log2_mul_pow2 by lia. fold l.
  set (E := fexp64 (l + 1 + e)).
  assert (HE : E = Z.max (l + 1 + e - 53) (-1074)) by reflexivity.
  replace (Z.max (c + l + 1 - 53) K) with (E - e + c) by (unfold c; lia).
  destruct (Z.ltb_spec 0 (E - e)) as [Hn|Hn].
  - destruct (Z.leb_spec (E - e + c) 0) as [H|_]; [lia|].
    rewrite rne_shift_scale by lia. f_equal. f_equal. unfold c. lia.
  - destruct (Z.leb_spec (E - e + c) 0) as [H|H].
    + f_equal. f_equal. unfold c in *. lia.
    + rewrite rne_shift_multiple by lia.
      rewrite <- Z.mul_assoc, <- Z.pow_add_r by (unfold c in *; lia).
      f_equal. f_equal. unfold c. lia.
Qed.

Section RoundingFacts.

Variables K X : Z.
Hypothesis HK : 0 <= K.
Hypothesis HX : 0 <= X.

Let n := Z.max (Z.log2 X + 1 - 53) K.
Let G := 2 ^ n.
Let q := X / G.
Let r := X mod G.

Lemma rne_split : 0 <= n /\ 0 < G /\ X = q * G + r /\ 0 <= r < G /\ 0 <= q.
Proof.
  assert (Hn : 0 <= n) by (unfold n; lia).
  assert (HG : 0 < G) by (apply pow2_pos; exact Hn).
  repeat split; try assumption.
  - unfold q, r. rewrite Z.mul_comm. apply Z.div_mod. lia.
  - apply Z.mod_pos_bound. exact HG.
  - apply Z.mod_pos_bound. exact HG.
  - apply Z.div_pos; assumption.
Qed.

Lemma rne_choice :
  (rne K X * 2 ^ K = q * G /\ 2 * r <= G)
  \/ (rne K X * 2 ^ K = (q + 1) * G /\ G <= 2 * r).
Proof.
  destruct rne_split as (Hn & HG & HXq & Hr & Hq).
  unfold rne. fold n.
  destruct (Z.leb_spec n 0) as [H0|H0].
  - assert (n = 0) by lia. assert (K = 0) by (unfold n in *; lia).
    left. subst K. change (2 ^ 0) with 1.
    assert (G = 1) by (unfold G; rewrite H; reflexivity).
    assert (r = 0) by (unfold r; rewrite H1; apply Z.mod_1_r).
    lia.
  - assert (HGK : 2 ^ (n - K) * 2 ^ K = G).
    { rewrite <- Z.pow_add_r by (unfold n in *; lia).
      unfold G. f_equal. lia. }
    assert (Hh : 2 * 2 ^ (n - 1) = G).
    { unfold G. replace n with (1 + (n - 1)) at 2 by lia.
      rewrite Z.pow_add_r by lia. reflexivity. }
    rewrite <- Z.mul_assoc, HGK.
    unfold rne_shift. fold G. fold q. fold r.
    destruct (Z.ltb_spec r (2 ^ (n - 1))); [left; split; lia|].
    destruct (Z.ltb_spec (2 ^ (n - 1)) r); [right; split; lia|].
    destruct (Z.even q); [left | right]; split; lia.
Qed.

Lemma rne_grid (W : Z) :
  representable W -> W * 2 ^ K <= q * G \/ (q + 1) * G <= W * 2 ^ K.
Proof.
  intros (mw & j & Hmw & Hj & ->).
  destruct rne_split as (Hn & HG & HXq & Hr & Hq).
  rewrite <- Z.mul_assoc, <- Z.pow_add_r by lia.
  destruct (Z.le_gt_cases n (j + K)) as [Hjn|Hjn].
  - replace (j + K) with ((j + K - n) + n) by lia.
    rewrite Z.pow_add_r by lia. fold G.
    pose proof (@pow2_pos (j + K - n) ltac:(lia)) as Hp.
    set (a := mw * 2 ^ (j + K - n)).
    replace (mw * (2 ^ (j + K - n) * G)) with (a * G) by (unfold a; ring).
    destruct (Z.le_gt_cases a q) as [H|H].
    + left. apply Z.mul_le_mono_nonneg_r; lia.
    + right. apply Z.mul_le_mono_nonneg_r; lia.
  - left.
    assert (Hn' : n = Z.log2 X + 1 - 53) by (unfold n in *; lia).
    assert (HXp : 0 < X).
    { destruct (Z.eq_dec X 0) as [E|E]; [|lia].
      rewrite E in Hn'. simpl in Hn'. lia. }
    pose proof (Z.log2_spec X HXp) as [Hlo _].
    assert (H52 : 2 ^ 52 <= q).
    { unfold q. apply Z.div_le_lower_bound; [exact HG|].
      unfold G. rewrite <- Z.pow_add_r by lia.
      replace (n + 52) with (Z.log2 X) by lia. exact Hlo. }
    apply Z.le_trans with (2 ^ 52 * G);
      [|apply Z.mul_le_mono_nonneg_r; lia].
    apply Z.le_trans with (2 ^ 53 * 2 ^ (j + K)).
    + apply Z.mul_le_mono_nonneg_r; [apply Z.pow_nonneg; lia | lia].
    + unfold G. replace n with ((n - (j + K) - 1) + 1 + (j + K)) at 1 by lia.
      rewrite !Z.pow_add_r by lia.
      pose proof (@pow2_pos (n - (j + K) - 1) ltac:(lia)).
      pose proof (@pow2_pos (j + K) ltac:(lia)).
      change (2 ^ 53) with (2 ^ 52 * 2). change (2 ^ 1) with 2.
      nia.
Qed.

Lemma rne_near (W : Z) :
  representable W -> Z.abs (rne K X * 2 ^ K - X) <= Z.abs (W * 2 ^ K - X).
Proof.
  intros HW.
  destruct rne_split as (Hn & HG & HXq & Hr & Hq).
  destruct (@rne_grid W HW) as [H|H]; destruct rne_choice as [[E Hc]|[E Hc]];
    rewrite E; lia.
Qed.

Lemma rne_le (W : Z) : representable W -> X <= W * 2 ^ K -> rne K X <= W.
Proof.
  intros HW H.
  destruct rne_split as (Hn & HG & HXq & Hr & Hq).
  pose proof (@pow2_pos K HK) as HP.
  apply (Z.mul_le_mono_pos_r _ _ (2 ^ K) HP).
  destruct (@rne_grid W HW) as [H1|H1]; destruct rne_choice as [[E Hc]|[E Hc]];
    rewrite E; lia.
Qed.

Lemma rne_ge (W : Z) : representable W -> W * 2 ^ K <= X -> W <= rne K X.
Proof.
  intros HW H.
  destruct rne_split as (Hn & HG & HXq & Hr & Hq).
  pose proof (@pow2_pos K HK) as HP.
  apply (Z.mul_le_mono_pos_r _ _ (2 ^ K) HP).
  destruct (@rne_grid W HW) as [H1|H1]; destruct rne_choice as [[E Hc]|[E Hc]];
    rewrite E; lia.
Qed.

End RoundingFacts.

Lemma rne_exact (K W : Z) : 0 <= K -> 0 <= W -> representable W -> rne K (W * 2 ^ K) = W.
Proof.
  intros HK HW Hr.
  pose proof (@pow2_pos K HK) as HP.
  assert (HX : 0 <= W * 2 ^ K) by lia.
  apply Z.le_antisymm.
  - apply rne_le; try assumption. lia.
  - apply rne_ge; try assumption. lia.
Qed.

(** ** Valid doubles and their values *)

Lemma valid_finite (s : bool) (m : positive) (e : Z) :
  valid_binary (S754_finite s m e) = true ->
  -1074 <= e <= 971 /\ Z.pos m < 2 ^ 53 /\ (e = -1074 \/ 2 ^ 52 <= Z.pos m).
Proof.
  unfold SpecFloat.valid_binary, SpecFloat.bounded, SpecFloat.canonical_mantissa.
  rewrite fexp_eq. intros H. apply andb_prop in H. destruct H as [H1 H2].
  apply Z.eqb_eq in H1. apply Z.leb_le in H2. change (emax - prec) with 971 in H2.
  pose proof (digits2_bounds m) as Hm.
  set (d := Z.pos (digits2_pos m)) in *.
  unfold fexp64 in H1.
  assert (Hd : d <= 53) by lia.
  split; [lia|]. split.
  - apply Z.lt_le_trans with (2 ^ d); [lia|].
    apply Z.pow_le_mono_r; lia.
  - destruct (Z.eq_dec e (-1074)) as [E|E]; [left; exact E|right].
    assert (d = 53) by lia. replace (d - 1) with 52 in Hm by lia. lia.
Qed.

Lemma repr_0 : representable 0.
Proof. exists 0, 0. repeat split; lia. Qed.

Lemma repr_valid (x : spec_float) :
  valid_binary x = true -> representable (sf_val x).
Proof.
  destruct x as [s|s| |s m e]; intros Hv; try exact repr_0.
  destruct (@valid_finite _ _ _ Hv) as (He & Hm & _).
  exists (Z.pos m), (e + 1074). cbn [sf_val]. repeat split; lia.
Qed.

Lemma sf_val_nonneg (x : spec_float) : 0 <= sf_val x.
Proof.
  destruct x as [s|s| |s m e]; cbn [sf_val]; try lia.
  all: apply Z.mul_nonneg_nonneg; [lia | apply Z.pow_nonneg; lia].
Qed.

Lemma sf_val_pos (s : bool) (m : positive) (e : Z) :
  -1074 <= e -> 0 < sf_val (S754_finite s m e).
Proof.
  intros He. cbn [sf_val]. apply Z.mul_pos_pos; [lia|]. apply pow2_pos. lia.
Qed.

(** Of two valid doubles, the one with the smaller exponent is the
    smaller. *)
Lemma canon_lt (s1 s2 : bool) (m1 m2 : positive) (e1 e2 : Z) :
  valid_binary (S754_finite s1 m1 e1) = true ->
  valid_binary (S754_finite s2 m2 e2) = true ->
  e1 < e2 ->
  sf_val (S754_finite s1 m1 e1) < sf_val (S754_finite s2 m2 e2).
Proof.
  intros H1 H2 He.
  destruct (@valid_finite _ _ _ H1) as (He1 & Hm1 & _).
  destruct (@valid_finite _ _ _ H2) as (He2 & _ & Hm2).
  destruct Hm2 as [E|Hm2]; [lia|]. cbn [sf_val].
  pose proof (@pow2_pos (e1 + 1074) ltac:(lia)) as P1.
  pose proof (@pow2_pos (e2 - e1 - 1) ltac:(lia)) as P2.
  replace (e2 + 1074) with ((e2 - e1 - 1) + ((e1 + 1074) + 1)) by lia.
  rewrite (Z.pow_add_r 2 (e2 - e1 - 1)), (Z.pow_add_r 2 (e1 + 1074) 1) by lia.
  change (2 ^ 1) with 2.
  set (P := 2 ^ (e1 + 1074)) in *. set (Q := 2 ^ (e2 - e1 - 1)) in *.
  apply Z.lt_le_trans with (2 ^ 53 * P).
  - apply Z.mul_lt_mono_pos_r; assumption.
  - change (2 ^ 53) with (2 ^ 52 * 2).
    apply Z.le_trans with (Z.pos m2 * (1 * (P * 2))).
    + rewrite Z.mul_1_l, (Z.mul_comm P 2), Z.mul_assoc.
      apply Z.mul_le_mono_nonneg_r; lia.
    + apply Z.mul_le_mono_nonneg_l; [lia|].
      apply Z.mul_le_mono_nonneg_r; lia.
Qed.


Lemma SFleb_le (x y : spec_float) :
  valid_binary x = true -> valid_binary y = true ->
  nonneg_sf x = true -> nonneg_sf y = true ->
  (SFleb x y = true <-> sf_val x <= sf_val y).
Proof.
  intros Hx Hy Nx Ny.
  destruct x as [sx|sx| |sx mx ex]; try discriminate;
    destruct y as [sy|sy| |sy my ey]; try discriminate.
  - cbn [sf_val]. split; [lia | reflexivity].
  - destruct sy; [discriminate|].
    destruct (@valid_finite _ _ _ Hy) as (He & _).
    pose proof (@sf_val_pos false my ey ltac:(lia)).
    unfold SFleb. cbn [SFcompare]. cbn [sf_val].
    split; [lia | reflexivity].
  - destruct sx; [discriminate|].
    destruct (@valid_finite _ _ _ Hx) as (He & _).
    pose proof (@sf_val_pos false mx ex ltac:(lia)).
    unfold SFleb. cbn [SFcompare]. cbn [sf_val].
    split; [discriminate | lia].
  - destruct sx; [discriminate|]. destruct sy; [discriminate|].
    unfold SFleb. cbn [SFcompare].
    destruct (Z.compare_spec ex ey) as [E|H|H].
    + subst ey.
      destruct (@valid_finite _ _ _ Hx) as (He & _).
      pose proof (@pow2_pos (ex + 1074) ltac:(lia)).
      change (Pos.compare_cont Eq mx my) with (Pos.compare mx my).
      cbn [sf_val].
      destruct (Pos.compare_spec mx my) as [E|H1|H1].
      * subst. split; [lia | reflexivity].
      * split; [nia | reflexivity].
      * split; [discriminate | nia].
    + pose proof (@canon_lt _ _ _ _ _ _ Hx Hy H). split; [lia | reflexivity].
    + pose proof (@canon_lt _ _ _ _ _ _ Hy Hx H). split; [discriminate | lia].
Qed.

(** ** The operations on doubles that are not negative *)

Lemma iter_xO (m d : positive) :
  Z.pos (Pos.iter xO m d) = Z.pos m * 2 ^ Z.pos d.
Proof.
  induction d as [|d IH] using Pos.peano_ind.
  - simpl. lia.
  - rewrite Pos.iter_succ, Pos2Z.inj_xO, IH, Pos2Z.inj_succ.
    rewrite Z.pow_succ_r by lia. ring.
Qed.

Lemma shl_align_spec (m : positive) (e e' : Z) :
  exists mz ez : _,
    shl_align m e e' = (mz, ez)
    /\ ez = Z.min e e'
    /\ Z.pos mz = Z.pos m * 2 ^ (e - ez).
Proof.
  unfold shl_align. destruct (e' - e) as [|p|p] eqn:E.
  - exists m, e. repeat split; [lia|].
    replace (e - e) with 0 by lia. lia.
  - exists m, e. repeat split; [lia|].
    replace (e - e) with 0 by lia. lia.
  - exists (Pos.iter xO m p), e'. repeat split; [lia|].
    rewrite iter_xO. f_equal. f_equal. lia.
Qed.

Lemma shl_align_fst (m : positive) (e e' : Z) :
  e' <= e -> Z.pos (fst (shl_align m e e')) = Z.pos m * 2 ^ (e - e').
Proof.
  intros H. destruct (shl_align_spec m e e') as (mz & ez & -> & Hez & Hmz).
  cbn [fst]. rewrite Hmz. f_equal. f_equal. lia.
Qed.

Lemma log2_bound (M c B : Z) :
  0 < M -> 0 <= c -> M * 2 ^ c < 2 ^ B -> Z.log2 M + c < B.
Proof.
  intros HM Hc H.
  pose proof (@pow2_pos c Hc).
  rewrite Z.add_comm, <- Z.log2_mul_pow2 by lia.
  apply Z.log2_lt_pow2; [nia | exact H].
Qed.

Lemma rne_0_0 : rne 0 0 = 0.
Proof. reflexivity. Qed.

Lemma rne_0_exact (W : Z) : 0 <= W -> representable W -> rne 0 W = W.
Proof.
  intros HW Hr. pose proof (@rne_exact 0 W ltac:(lia) HW Hr) as H.
  change (2 ^ 0) with 1 in H. rewrite Z.mul_1_r in H. exact H.
Qed.

Lemma binary_normalize_rne (M e : Z) :
  0 < M -> -1074 <= e -> M * 2 ^ (e + 1074) < 2 ^ 1900 ->
  nonneg_sf (binary_normalize prec emax M e false) = true
  /\ sf_val (binary_normalize prec emax M e false) = rne 0 (M * 2 ^ (e + 1074)).
Proof.
  intros HM He Hb. destruct M as [|p|p]; try lia.
  pose proof (@log2_bound (Z.pos p) (e + 1074) 1900 ltac:(lia) ltac:(lia) Hb) as Hl.
  pose proof (Z.log2_nonneg (Z.pos p)) as Hl0.
  cbn [binary_normalize]. unfold binary_round. rewrite fexp_eq.
  destruct (shl_align_spec p e (fexp64 (Z.pos (digits2_pos p) + e)))
    as (mz & ez & -> & Hez & Hmz).
  assert (Hez' : -1074 <= ez <= e) by (unfold fexp64 in Hez; lia).
  assert (Hdz : Z.pos (digits2_pos mz) + ez = Z.log2 (Z.pos p) + 1 + e).
  { rewrite digits2_log2, Hmz, Z.log2_mul_pow2 by lia. lia. }
  destruct (@bra_rne false mz ez 0) as (z & Hz & Hs & Hv); try lia.
  rewrite Hz. split.
  - destruct Hs as [-> | (m' & e' & ->)]; reflexivity.
  - rewrite Hv. f_equal. rewrite Hmz, <- Z.mul_assoc, <- Z.pow_add_r by lia.
    f_equal. f_equal. lia.
Qed.

Section Operations.

Variables x y : spec_float.
Hypothesis Vx : valid_binary x = true.
Hypothesis Vy : valid_binary y = true.
Hypothesis Nx : nonneg_sf x = true.
Hypothesis Ny : nonneg_sf y = true.

Lemma SFadd_nonneg :
  sf_val x + sf_val y < 2 ^ 1900 ->
  nonneg_sf (SFadd prec emax x y) = true
  /\ sf_val (SFadd prec emax x y) = rne 0 (sf_val x + sf_val y).
Proof.
  intros Hb.
  destruct x as [sx|sx| |sx mx ex]; try discriminate;
    destruct y as [sy|sy| |sy my ey]; try discriminate.
  - destruct sx, sy; split; reflexivity.
  - destruct sy; [discriminate|]. split; [reflexivity|].
    cbn [SFadd]. change (sf_val (S754_zero sx)) with 0. rewrite Z.add_0_l.
    symmetry. apply rne_0_exact; [apply sf_val_nonneg | apply repr_valid; exact Vy].
  - destruct sx; [discriminate|]. split; [reflexivity|].
    cbn [SFadd]. change (sf_val (S754_zero sy)) with 0. rewrite Z.add_0_r.
    symmetry. apply rne_0_exact; [apply sf_val_nonneg | apply repr_valid; exact Vx].
  - destruct sx; [discriminate|]. destruct sy; [discriminate|].
    destruct (@valid_finite _ _ _ Vx) as (Hex & _).
    destruct (@valid_finite _ _ _ Vy) as (Hey & _).
    cbn [SFadd cond_Zopp].
    set (ez := Z.min ex ey).
    rewrite !shl_align_fst by (unfold ez; lia).
    assert (E : (Z.pos mx * 2 ^ (ex - ez) + Z.pos my * 2 ^ (ey - ez))
                * 2 ^ (ez + 1074)
                = sf_val (S754_finite false mx ex)
                  + sf_val (S754_finite false my ey)).
    { cbn [sf_val]. rewrite Z.mul_add_distr_r.
      rewrite <- !Z.mul_assoc, <- !Z.pow_add_r by (unfold ez; lia).
      f_equal; f_equal; f_equal; lia. }
    rewrite <- E in *.
    pose proof (@pow2_pos (ex - ez) ltac:(unfold ez; lia)).
    pose proof (@pow2_pos (ey - ez) ltac:(unfold ez; lia)).
    apply binary_normalize_rne; [nia | unfold ez; lia | exact Hb].
Qed.

Lemma SFsub_nonneg :
  sf_val y <= sf_val x -> sf_val x < 2 ^ 1900 ->
  nonneg_sf (SFsub prec emax x y) = true
  /\ sf_val (SFsub prec emax x y) = rne 0 (sf_val x - sf_val y).
Proof.
  intros Hle Hb.
  destruct x as [sx|sx| |sx mx ex]; try discriminate;
    destruct y as [sy|sy| |sy my ey]; try discriminate.
  - destruct sx, sy; split; reflexivity.
  - exfalso. destruct (@valid_finite _ _ _ Vy) as (Hey & _).
    pose proof (@sf_val_pos sy my ey ltac:(lia)).
    change (sf_val (S754_zero sx)) with 0 in Hle. lia.
  - destruct sx; [discriminate|]. split; [reflexivity|].
    cbn [SFsub]. change (sf_val (S754_zero sy)) with 0. rewrite Z.sub_0_r.
    symmetry. apply rne_0_exact; [apply sf_val_nonneg | apply repr_valid; exact Vx].
  - destruct sx; [discriminate|]. destruct sy; [discriminate|].
    destruct (@valid_finite _ _ _ Vx) as (Hex & _).
    destruct (@valid_finite _ _ _ Vy) as (Hey & _).
    cbn [SFsub cond_Zopp].
    set (ez := Z.min ex ey).
    rewrite !shl_align_fst by (unfold ez; lia).
    assert (E : (Z.pos mx * 2 ^ (ex - ez) - Z.pos my * 2 ^ (ey - ez))
                * 2 ^ (ez + 1074)
                = sf_val (S754_finite false mx ex)
                  - sf_val (S754_finite false my ey)).
    { cbn [sf_val]. rewrite Z.mul_sub_distr_r.
      rewrite <- !Z.mul_assoc, <- !Z.pow_add_r by (unfold ez; lia).
      f_equal; f_equal; f_equal; lia. }
    rewrite <- E in *.
    pose proof (@pow2_pos (ez + 1074) ltac:(unfold ez; lia)) as Pz.
    set (M := Z.pos mx * 2 ^ (ex - ez) - Z.pos my * 2 ^ (ey - ez)) in *.
    assert (HM : 0 <= M) by nia.
    destruct (Z.eq_dec M 0) as [E0|E0].
    + rewrite E0. split; reflexivity.
    + apply binary_normalize_rne; [lia | unfold ez; lia |].
      pose proof (sf_val_nonneg (S754_finite false my ey)). lia.
Qed.

Lemma SFmul_nonneg :
  sf_val x * sf_val y < 2 ^ 3000 ->
  nonneg_sf (SFmul prec emax x y) = true
  /\ sf_val (SFmul prec emax x y) = rne 1074 (sf_val x * sf_val y).
Proof.
  intros Hb.
  destruct x as [sx|sx| |sx mx ex]; try discriminate;
    destruct y as [sy|sy| |sy my ey]; try discriminate.
  - split; reflexivity.
  - destruct sy; [discriminate|]. split; reflexivity.
  - destruct sx; [discriminate|]. split; [reflexivity|].
    cbn [SFmul]. change (sf_val (S754_zero sy)) with 0.
    rewrite Z.mul_0_r. reflexivity.
  - destruct sx; [discriminate|]. destruct sy; [discriminate|].
    destruct (@valid_finite _ _ _ Vx) as (Hex & _).
    destruct (@valid_finite _ _ _ Vy) as (Hey & _).
    cbn [SFmul xorb].
    assert (E : Z.pos (mx * my) * 2 ^ (ex + ey + 1074 + 1074)
                = sf_val (S754_finite false mx ex)
                  * sf_val (S754_finite false my ey)).
    { cbn [sf_val]. rewrite Pos2Z.inj_mul.
      replace (ex + ey + 1074 + 1074) with ((ex + 1074) + (ey + 1074)) by lia.
      rewrite Z.pow_add_r by lia. ring. }
    rewrite <- E in *.
    pose proof (@log2_bound (Z.pos (mx * my)) (ex + ey + 1074 + 1074) 3000
                  ltac:(lia) ltac:(lia) Hb) as Hl.
    pose proof (Z.log2_nonneg (Z.pos (mx * my))) as Hl0.
    destruct (@bra_rne false (mx * my) (ex + ey) 1074) as (z & Hz & Hs & Hv);
      try lia.
    { rewrite digits2_log2. lia. }
    rewrite Hz. split.
    + destruct Hs as [-> | (m' & e' & ->)]; reflexivity.
    + exact Hv.
Qed.

End Operations.

(** ** Doubles *)

Lemma fval_nonneg (x : float) : 0 <= fval x.
Proof. apply sf_val_nonneg. Qed.

Lemma fval_repr (x : float) : representable (fval x).
Proof. apply repr_valid. apply Prim2SF_valid. Qed.

Lemma add_nonneg (x y : float) :
  fnonneg x = true -> fnonneg y = true -> fval x + fval y < 2 ^ 1900 ->
  fnonneg (x + y) = true /\ fval (x + y) = rne 0 (fval x + fval y).
Proof.
  unfold fnonneg, fval. intros Nx Ny Hb. rewrite add_spec.
  apply SFadd_nonneg; try assumption; apply Prim2SF_valid.
Qed.

Lemma sub_nonneg (x y : float) :
  fnonneg x = true -> fnonneg y = true ->
  fval y <= fval x -> fval x < 2 ^ 1900 ->
  fnonneg (x - y) = true /\ fval (x - y) = rne 0 (fval x - fval y).
Proof.
  unfold fnonneg, fval. intros Nx Ny Hle Hb. rewrite sub_spec.
  apply SFsub_nonneg; try assumption; apply Prim2SF_valid.
Qed.

Lemma mul_nonneg (x y : float) :
  fnonneg x = true -> fnonneg y = true -> fval x * fval y < 2 ^ 3000 ->
  fnonneg (x * y) = true /\ fval (x * y) = rne 1074 (fval x * fval y).
Proof.
  unfold fnonneg, fval. intros Nx Ny Hb. rewrite mul_spec.
  apply SFmul_nonneg; try assumption; apply Prim2SF_valid.
Qed.


Lemma leb_fval (x y : float) :
  fnonneg x = true -> fnonneg y = true ->
  ((x <=? y)%float = true <-> fval x <= fval y).
Proof.
  intros Nx Ny. rewrite leb_spec.
  apply SFleb_le; try assumption; apply Prim2SF_valid.
Qed.

(** A double between 0 and 1 is not negative and its value is at most
    that of 1. *)
Lemma unit_interval (t : float) :
  (0 <=? t)%float = true -> (t <=? 1)%float = true ->
  fnonneg t = true /\ 0 <= fval t <= 2 ^ 1074.
Proof.
  intros H0 H1.
  assert (N : fnonneg t = true).
  { rewrite leb_spec in H0, H1. unfold fnonneg.
    change (Prim2SF 0) with (S754_zero false) in H0.
    change (Prim2SF 1) with (S754_finite false 4503599627370496 (-52)) in H1.
    destruct (Prim2SF t) as [s|s| |s m e]; try reflexivity.
    - destruct s; discriminate.
    - discriminate.
    - destruct s; [discriminate | reflexivity]. }
  split; [exact N|]. split; [apply fval_nonneg|].
  assert (N1 : fnonneg 1 = true) by reflexivity.
  apply (proj1 (@leb_fval t 1 N N1)) in H1.
  exact H1.
Qed.

(** ** The blend of the background *)

Lemma repr_scaled (a j : Z) : 0 <= a <= 2 ^ 53 -> 0 <= j -> representable (a * 2 ^ j).
Proof.
  intros Ha Hj. destruct (Z.eq_dec a (2 ^ 53)) as [E|E].
  - exists (2 ^ 52), (j + 1). repeat split; try lia.
    rewrite E, Z.pow_add_r by lia. change (2 ^ 53) with (2 ^ 52 * 2 ^ 1). ring.
  - exists a, j. repeat split; lia.
Qed.


Lemma gap_one (W : Z) :
  representable W -> 2 ^ 1074 - 2 ^ 1021 < W -> W < 2 ^ 1074 + 2 ^ 1022 ->
  W = 2 ^ 1074.
Proof.
  intros (mw & j & Hmw & Hj & ->) Hlo Hhi.
  destruct (Z.le_gt_cases 1022 j) as [H|H].
  - assert (E : mw * 2 ^ j = mw * 2 ^ (j - 1022) * 2 ^ 1022).
    { rewrite <- Z.mul_assoc, <- Z.pow_add_r by lia. f_equal. f_equal. lia. }
    rewrite E in *. lia.
  - exfalso.
    assert (mw * 2 ^ j <= mw * 2 ^ 1021).
    { apply Z.mul_le_mono_nonneg_l; [lia|]. apply Z.pow_le_mono_r; lia. }
    lia.
Qed.

(** The difference [1 - t] is off by at most [2^-54]. *)
Lemma rne_one_minus (T : Z) :
  0 <= T <= 2 ^ 1074 ->
  Z.abs (rne 0 (2 ^ 1074 - T) - (2 ^ 1074 - T)) <= 2 ^ 1020.
Proof.
  intros HT. set (Y := 2 ^ 1074 - T).
  pose proof (Z.div_mod (Y + 2 ^ 1020) (2 ^ 1021) ltac:(lia)) as Hdm.
  pose proof (Z.mod_pos_bound (Y + 2 ^ 1020) (2 ^ 1021) ltac:(lia)) as Hr.
  set (k := (Y + 2 ^ 1020) / 2 ^ 1021) in *.
  set (rm := (Y + 2 ^ 1020) mod 2 ^ 1021) in *.
  assert (Hk : 0 <= k <= 2 ^ 53) by (unfold Y in *; lia).
  pose proof (@repr_scaled k 1021 Hk ltac:(lia)) as HW.
  pose proof (@rne_near 0 Y ltac:(lia) ltac:(unfold Y; lia) _ HW) as Hn.
  change (2 ^ 0) with 1 in Hn. rewrite !Z.mul_1_r in Hn. lia.
Qed.

(** A sum within [2^-54] of 1 rounds to 1. *)
Lemma rne_near_one (X : Z) :
  representable (rne 0 X) ->
  2 ^ 1074 - 2 ^ 1020 <= X <= 2 ^ 1074 + 2 ^ 1020 -> rne 0 X = 2 ^ 1074.
Proof.
  intros Hrep HX.
  destruct (Z.eq_dec X (2 ^ 1074 - 2 ^ 1020)) as [E|E].
  - rewrite E. vm_compute. reflexivity.
  - assert (H1 : representable (2 ^ 1074)).
    { exists (2 ^ 52), 1022. repeat split; lia. }
    pose proof (@rne_near 0 X ltac:(lia) ltac:(lia) _ H1) as Hn.
    change (2 ^ 0) with 1 in Hn. rewrite !Z.mul_1_r in Hn.
    apply gap_one; [exact Hrep | lia | lia].
Qed.

Section Blend.

Variable t : float.
Hypothesis H0 : (0 <=? t)%float = true.
Hypothesis H1 : (t <=? 1)%float = true.

Lemma blend_t : fnonneg t = true /\ 0 <= (fval t) <= 2 ^ 1074.
Proof. exact (@unit_interval t H0 H1). Qed.

Lemma blend_a :
  fnonneg ((1 - t) * 1)%float = true /\ fval ((1 - t) * 1)%float = rne 0 (2 ^ 1074 - (fval t))
  /\ Z.abs (fval ((1 - t) * 1)%float - (2 ^ 1074 - (fval t))) <= 2 ^ 1020.
Proof.
  destruct blend_t as [Nt HT].
  destruct (@sub_nonneg 1 t) as [N1 V1]; try assumption; try reflexivity.
  { change (fval 1) with (2 ^ 1074). lia. }
  change (fval 1) with (2 ^ 1074) in V1.
  pose proof (@rne_one_minus (fval t) HT) as Hb. rewrite <- V1 in Hb.
  destruct (@mul_nonneg (1 - t) 1) as [N2 V2]; try assumption; try reflexivity.
  { change (fval 1) with (2 ^ 1074). lia. }
  change (fval 1) with (2 ^ 1074) in V2.
  rewrite rne_exact in V2 by (try lia; try apply fval_nonneg; apply fval_repr).
  split; [exact N2|]. rewrite V2. split; [exact V1 | exact Hb].
Qed.

Lemma blend_scale (c : float) :
  fnonneg c = true -> fval c <= 2 ^ 1074 ->
  fnonneg (t * c) = true
  /\ fval (t * c) = rne 1074 ((fval t) * fval c)
  /\ 0 <= fval (t * c) <= (fval t).
Proof.
  intros Nc Hc. destruct blend_t as [Nt HT].
  pose proof (fval_nonneg c) as Hc0.
  destruct (@mul_nonneg t c) as [N V]; try assumption.
  { nia. }
  split; [exact N|]. split; [exact V|].
  split; [apply fval_nonneg|]. rewrite V.
  apply rne_le; try lia; try nia. apply fval_repr.
Qed.

Lemma blend_sum (p : float) :
  fnonneg p = true -> fval p <= (fval t) ->
  fnonneg (((1 - t) * 1)%float + p) = true
  /\ fval (((1 - t) * 1)%float + p) = rne 0 (fval ((1 - t) * 1)%float + fval p)
  /\ fval (((1 - t) * 1)%float + p) <= 2 ^ 1074.
Proof.
  intros Np Hp. destruct blend_t as [Nt HT].
  destruct blend_a as (Na & Va & Ha).
  pose proof (fval_nonneg p) as Hp0. pose proof (fval_nonneg ((1 - t) * 1)%float) as Ha0.
  destruct (@add_nonneg ((1 - t) * 1)%float p) as [N V]; try assumption; [lia|].
  split; [exact N|]. split; [exact V|].
  destruct (Z.le_gt_cases (fval ((1 - t) * 1)%float + fval p) (2 ^ 1074)) as [H|H].
  - rewrite V.
    apply rne_le;
      [lia | lia | exists (2 ^ 52), 1022; repeat split; lia
      | change (2 ^ 0) with 1; lia].
  - rewrite V. rewrite rne_near_one; [lia | rewrite <- V; apply fval_repr | lia].
Qed.





End Blend.

(** ** Doubles between 0 and 1 *)

Lemma in_unit_spec (c : float) :
  in_unit c = true <-> fnonneg c = true /\ fval c <= 2 ^ 1074.
Proof.
  unfold in_unit. split.
  - intros H. apply andb_prop in H. destruct H as [H0 H1].
    destruct (@unit_interval c H0 H1) as [N [_ H]]. split; assumption.
  - intros [N H]. apply andb_true_intro. split.
    + apply leb_fval; [reflexivity | exact N|]. apply fval_nonneg.
    + apply leb_fval; [exact N | reflexivity|]. exact H.
Qed.

Lemma in_unit_mul (x y : float) :
  in_unit x = true -> in_unit y = true -> in_unit (x * y) = true.
Proof.
  intros Hx Hy. apply in_unit_spec in Hx, Hy.
  destruct Hx as [Nx Hx], Hy as [Ny Hy].
  pose proof (fval_nonneg x). pose proof (fval_nonneg y).
  assert (Hp : fval x * fval y <= 2 ^ 1074 * 2 ^ 1074)
    by (apply Z.mul_le_mono_nonneg; lia).
  destruct (@mul_nonneg x y Nx Ny ltac:(lia)) as [N V].
  apply in_unit_spec. split; [exact N|]. rewrite V.
  apply rne_le; [lia | nia | exists (2 ^ 52), 1022; repeat split; lia | lia].
Qed.

(** Minus a double that is not positive, plus one. *)
Lemma SFadd_neg_one (m : positive) (e : Z) :
  SFadd prec emax (S754_finite true m e) (Prim2SF 1)
  = SFsub prec emax (Prim2SF 1) (S754_finite false m e).
Proof.
  change (Prim2SF 1) with (S754_finite false 4503599627370496 (-52)).
  cbn [SFadd SFsub cond_Zopp]. rewrite (Z.min_comm e (-52)).
  reflexivity.
Qed.

(** [0.5 * (u + 1)] lies between 0 and 1 when [u] lies between -1 and 1. *)
Lemma half_shift_unit (u : float) :
  (-1 <=? u)%float = true -> (u <=? 1)%float = true ->
  in_unit (0.5 * (u + 1)) = true.
Proof.
  intros Hlo Hhi.
  assert (Hs : fnonneg (u + 1) = true /\ fval (u + 1) <= 2 ^ 1075).
  { assert (H2 : representable (2 ^ 1075))
      by (exists (2 ^ 52), 1023; repeat split; lia).
    pose proof (Prim2SF_valid u) as Vu.
    rewrite leb_spec in Hlo, Hhi. unfold fnonneg, fval.
    rewrite add_spec.
    change (Prim2SF (-1)) with (S754_finite true 4503599627370496 (-52)) in Hlo.
    destruct (Prim2SF u) as [s|s| |s m e] eqn:Eu.
    - split; [reflexivity|].
      change (sf_val (SF64add (S754_zero s) (Prim2SF 1))) with (2 ^ 1074).
      lia.
    - destruct s; [discriminate Hlo | discriminate Hhi].
    - discriminate Hlo.
    - destruct s.
      + (* u is negative: u + 1 = 1 - |u| *)
        unfold SF64add. rewrite SFadd_neg_one.
        assert (Vm : valid_binary (S754_finite false m e) = true) by exact Vu.
        assert (Hle : sf_val (S754_finite false m e) <= sf_val (Prim2SF 1)).
        { change (Prim2SF 1) with (S754_finite false 4503599627370496 (-52)).
          unfold SFleb in Hlo. cbn [SFcompare] in Hlo.
          destruct (Z.compare_spec (-52) e) as [E|H|H].
          - subst e. change (Pos.compare_cont Eq 4503599627370496 m)
              with (Pos.compare 4503599627370496 m) in Hlo.
            cbn [sf_val]. change (-52 + 1074) with 1022.
            destruct (Pos.compare 4503599627370496 m) eqn:Ec.
            + apply Pos.compare_eq in Ec. subst m. lia.
            + discriminate Hlo.
            + apply Pos.compare_gt_iff, Pos2Z.pos_lt_pos in Ec. lia.
          - discriminate Hlo.
          - apply Z.lt_le_incl. apply canon_lt; [exact Vm | reflexivity | exact H]. }
        destruct (@SFsub_nonneg (Prim2SF 1) (S754_finite false m e))
          as [N V]; try reflexivity; try assumption.
        split; [exact N|]. rewrite V.
        pose proof (sf_val_nonneg (S754_finite false m e)).
        change (sf_val (Prim2SF 1)) with (2 ^ 1074) in *.
        apply rne_le; [lia | lia | exact H2 | change (2 ^ 0) with 1; lia].
      + (* u is not negative *)
        assert (Nu : nonneg_sf (S754_finite false m e) = true) by reflexivity.
        assert (Hle : sf_val (S754_finite false m e) <= sf_val (Prim2SF 1)).
        { apply SFleb_le; try assumption; reflexivity. }
        pose proof (sf_val_nonneg (S754_finite false m e)).
        change (sf_val (Prim2SF 1)) with (2 ^ 1074) in Hle.
        destruct (@SFadd_nonneg (S754_finite false m e) (Prim2SF 1))
          as [N V]; try reflexivity; try assumption.
        { change (sf_val (Prim2SF 1)) with (2 ^ 1074). lia. }
        split; [exact N|]. unfold SF64add. rewrite V.
        change (sf_val (Prim2SF 1)) with (2 ^ 1074).
        apply rne_le; [lia | lia | exact H2 | change (2 ^ 0) with 1; lia]. }
  destruct Hs as [Ns Hs]. pose proof (fval_nonneg (u + 1)).
  destruct (@mul_nonneg 0.5 (u + 1)) as [N V]; try reflexivity; try assumption.
  { change (fval 0.5) with (2 ^ 1073). lia. }
  apply in_unit_spec. split; [exact N|]. rewrite V.
  change (fval 0.5) with (2 ^ 1073).
  apply rne_le; [lia | lia | exists (2 ^ 52), 1022; repeat split; lia | lia].
Qed.

(** With a weight [c] between 0 and 1 the blend of 1 and [c] stays between
    0 and 1. *)
Lemma blend_in_unit (t c : float) :
  in_unit t = true -> in_unit c = true ->
  in_unit ((1 - t) * 1 + t * c) = true.
Proof.
  intros Ht Hc. unfold in_unit in Ht.
  apply andb_prop in Ht. destruct Ht as [H0 H1].
  apply in_unit_spec in Hc. destruct Hc as [Nc Hc].
  destruct (@blend_scale t H0 H1 c Nc Hc) as (Np & _ & Hp).
  destruct (@blend_sum t H0 H1 (t * c)%float Np (proj2 Hp)) as (N & _ & Hle).
  apply in_unit_spec. split; assumption.
Qed.

End Binary64Facts.

(* ================================================================= *)
(** ** The background colour *)


(** Nor is a nonzero computed length enough for C10.  The squared
    length of the direction (0, -1.5 * 2^-537, 0) is rounded to the
    smallest positive double: the computed length is not zero and the
    normalized vector is finite, but its y is about -1.06, t is negative,
    and the colour of the miss has red and green above 1 and blue below
    1. *)
Lemma background_off_range_on_faint_direction :
  length (direction Demo.ray_faint) <> 0%float
  /\ unit_vector (direction Demo.ray_faint)
     = mk_vec3 0%float (-1.0606601717798212)%float 0%float
  /\ Demo.hit Demo.Empty Demo.ray_faint (lit 0.001) infinity 0%nat
     = (None, 0%nat)
  /\ fst (ray_color Demo.hit Demo.scatter infinity Demo.ray_faint Demo.Empty
            1 0%nat)
     = mk_vec3 1.0151650429449552%float 1.009099025766973%float
         0.99999999999999989%float
  /\ (1 <? x (fst (ray_color Demo.hit Demo.scatter infinity Demo.ray_faint
                     Demo.Empty 1 0%nat)))%float = true
  /\ (z (fst (ray_color Demo.hit Demo.scatter infinity Demo.ray_faint
                Demo.Empty 1 0%nat)) <? 1)%float = true.
Proof.
  split.
  { apply eqb_separates with (c := 0%float). vm_compute. discriminate. }
  repeat split; vm_compute; reflexivity.
Qed.

(** On doubles and ordinary directions the colour of a miss is within the
    stated ranges: straight up, level, straight down. *)
Example background_float_samples :
  background (mk_ray (v3 0 0 0) (v3 0 1 0))
  = mk_vec3 0.5%float 0.7%float 1%float
  /\ background (mk_ray (v3 0 0 0) (v3 0 0 1))
     = mk_vec3 0.75%float 0.84999999999999998%float 1%float
  /\ background (mk_ray (v3 0 0 0) (v3 0 (-1) 0))
     = mk_vec3 1%float 1%float 1%float.
Proof. repeat split; vm_compute; reflexivity. Qed.

Section ExactArithmetic.

Local Open Scope R_scope.

(** No component of a normalized nonzero vector exceeds 1 in size. *)
Lemma unit_vector_y_range (v : vec3 R) :
  v <> mk_vec3 0 0 0 -> -1 <= y (unit_vector v) <= 1.
Proof.
  intros Hv. pose proof (length_pos Hv) as HL.
  change (y (unit_vector v)) with (y v / length v).
  assert (Hsq : length v * length v = length_squared v).
  { unfold length. simpl. apply sqrt_sqrt.
    unfold length_squared. simpl. nra. }
  assert (Hy : y v * y v <= length v * length v).
  { rewrite Hsq. unfold length_squared. simpl. nra. }
  set (L := length v) in *.
  assert (Hk : 0 < / L) by (apply Rinv_0_lt_compat; exact HL).
  assert (HLk : L * / L = 1) by (apply Rinv_r; lra).
  unfold Rdiv.
  assert (Hle : y v <= L) by nra.
  assert (Hge : - L <= y v) by nra.
  split; nra.
Qed.

(** In exact arithmetic the colour of a miss along a nonzero direction has
    blue 1, red in [0.5, 1] and green in [0.7, 1]. *)
Lemma background_exact (r : ray R) :
  direction r <> mk_vec3 0 0 0 ->
  z (background r) = 1
  /\ 0.5 <= x (background r) <= 1
  /\ 0.7 <= y (background r) <= 1.
Proof.
  intros Hd. pose proof (unit_vector_y_range Hd) as Hu.
  unfold background. cbv zeta.
  set (u := y (unit_vector (direction r))) in *.
  simpl. unfold Q2R. simpl.
  repeat split; lra.
Qed.

End ExactArithmetic.

(** The colour of a miss on doubles, component by component. *)
Lemma background_float (r : ray float) :
  background r =
  mk_vec3 ((1 - sky_t r) * 1 + sky_t r * 0.5)%float
    ((1 - sky_t r) * 1 + sky_t r * 0.7)%float
    ((1 - sky_t r) * 1 + sky_t r * 1)%float.
Proof. reflexivity. Qed.

(** The blend parameter is between 0 and 1 whenever the normalized
    direction, as computed, has its y between -1 and 1. *)
Lemma sky_t_range (r : ray float) :
  (-1 <=? y (unit_vector (direction r)))%float = true ->
  (y (unit_vector (direction r)) <=? 1)%float = true ->
  (0 <=? sky_t r)%float = true /\ (sky_t r <=? 1)%float = true.
Proof.
  intros Hlo Hhi.
  pose proof (@half_shift_unit _ Hlo Hhi) as H.
  unfold in_unit in H. apply andb_prop in H. exact H.
Qed.



(* ================================================================= *)
(** ** The render loop *)

Lemma cat_app (l1 l2 : list string) :
  cat (l1 ++ l2) = (cat l1 ++ cat l2)%string.
Proof.
  induction l1 as [|a l1 IH]; simpl; [reflexivity|].
  rewrite IH. symmetry. apply string_app_assoc.
Qed.

Lemma rows_top_down_length (h : Z) :
  List.length (rows_top_down h) = Z.to_nat h.
Proof.
  unfold rows_top_down. rewrite length_map, length_rev, length_seq.
  reflexivity.
Qed.

Lemma cols_left_right_length (w : Z) :
  List.length (cols_left_right w) = Z.to_nat w.
Proof.
  unfold cols_left_right. rewrite length_map, length_seq. reflexivity.
Qed.

Section MainFacts.

Variable G : Type.
Variable hit :
  hittable_list float -> ray float -> float -> float -> G ->
  option (hit_record float (material float)) * G.
Variable scatter :
  material float -> ray float -> hit_record float (material float) -> G ->
  option (color float * ray float) * G.
Variable infinity : float.
Variable camera : Type.
Variable camera_new :
  point3 float -> point3 float -> vec3 float ->
  float -> float -> float -> float -> camera.
Variable get_ray : camera -> float -> float -> G -> ray float * G.
Variable random_double : G -> float * G.
Variable write_colour : color float -> Z -> string.

Local Open Scope string_scope.

(** A pixel appends the text of one [write_colour] call to the standard
    output. *)
Lemma pixel_cout (j i : Z) (st : process G) :
  exists cs : list (color float),
    List.length cs = 1%nat
    /\ cout (pixel hit scatter infinity camera_new get_ray random_double
               write_colour j i st)
       = cout st ++ written write_colour 250 cs.
Proof.
  unfold pixel.
  destruct (for_loop _ _ _ _ _ _) as [pixel_color g].
  exists [pixel_color]. split; [reflexivity|].
  unfold written, put_cout, samples_per_pixel. cbn [cout map cat fold_right].
  rewrite string_app_nil_r. reflexivity.
Qed.

Lemma cout_put_cerr (txt : string) (st : process G) :
  cout (put_cerr txt st) = cout st.
Proof. reflexivity. Qed.

Lemma cout_put_cout (txt : string) (st : process G) :
  cout (put_cout txt st) = cout st ++ txt.
Proof. reflexivity. Qed.

(** Steps that each append [n] pixels to the standard output append
    [n * length l] pixels when folded over [l]. *)
Lemma fold_left_cout (A : Type) (f : process G -> A -> process G) (n : nat) :
  (forall s a, exists cs : list (color float),
      List.length cs = n
      /\ cout (f s a) = cout s ++ written write_colour 250 cs) ->
  forall (l : list A) (st : process G),
  exists cs : list (color float),
    List.length cs = (List.length l * n)%nat
    /\ cout (fold_left f l st) = cout st ++ written write_colour 250 cs.
Proof.
  intros Hf. induction l as [|a l IH]; intros st; cbn [fold_left].
  - exists []. split; [reflexivity|]. symmetry. apply string_app_nil_r.
  - destruct (IH (f st a)) as (cs2 & L2 & H2).
    destruct (Hf st a) as (cs1 & L1 & H1).
    exists (cs1 ++ cs2)%list. split.
    + rewrite length_app, L1, L2. reflexivity.
    + rewrite H2, H1. unfold written. rewrite map_app, cat_app.
      apply string_app_assoc.
Qed.

Lemma scanline_eq (j : Z) (st : process G) :
  scanline hit scatter infinity camera_new get_ray random_double
    write_colour j st =
  fold_left
    (fun s i =>
       pixel hit scatter infinity camera_new get_ray random_double
         write_colour j i s)
    (cols_left_right 800)
    (put_cerr (cr ++ "Scanlines remaining: " ++ show_int j ++ " ") st).
Proof. unfold scanline, image_width. apply for_loop_cols. Qed.

Lemma scanline_cout (j : Z) (st : process G) :
  exists cs : list (color float),
    List.length cs = 800%nat
    /\ cout (scanline hit scatter infinity camera_new get_ray random_double
               write_colour j st)
       = cout st ++ written write_colour 250 cs.
Proof.
  rewrite scanline_eq.
  destruct (fold_left_cout
              (fun s i =>
                 pixel hit scatter infinity camera_new get_ray random_double
                   write_colour j i s)
              (fun s i => pixel_cout j i s)
              (cols_left_right 800)
              (put_cerr (cr ++ "Scanlines remaining: " ++ show_int j ++ " ")
                 st)) as (cs & L & H).
  exists cs. split.
  - rewrite L, cols_left_right_length. reflexivity.
  - rewrite H, cout_put_cerr. reflexivity.
Qed.

(** C8: the image is 800 wide and 450 high; [main] first writes the header
    "P3", "800 450", "255" to the standard output, then runs the rows
    j = 449, 448, ..., 0 in that order and, within each row, the pixels
    i = 0, 1, ..., 799 in that order, one [write_colour] call for each; the
    standard output it leaves is what was there, then the header, then the
    text of these 450 * 800 calls. *)
Theorem main_output (st : process G) :
  image_width = 800%Z
  /\ image_height (F := float) = 450%Z
  /\ main hit scatter infinity camera_new get_ray random_double
       write_colour st =
     put_cerr (nl ++ "Done." ++ nl)
       (fold_left
          (fun s j =>
             fold_left
               (fun s' i =>
                  pixel hit scatter infinity camera_new get_ray
                    random_double write_colour j i s')
               (cols_left_right 800)
               (put_cerr
                  (cr ++ "Scanlines remaining: " ++ show_int j ++ " ") s))
          (rows_top_down 450)
          (put_cout ("P3" ++ nl ++ "800 450" ++ nl ++ "255" ++ nl) st))
  /\ rows_top_down 450 = map (fun k => (449 - Z.of_nat k)%Z) (seq 0 450)
  /\ cols_left_right 800 = map Z.of_nat (seq 0 800)
  /\ exists cs : list (color float),
       List.length cs = (450 * 800)%nat
       /\ cout (main hit scatter infinity camera_new get_ray random_double
                  write_colour st)
          = cout st ++ ("P3" ++ nl ++ "800 450" ++ nl ++ "255" ++ nl)
              ++ written write_colour 250 cs.
Proof.
  split; [reflexivity|]. split; [exact image_height_float|].
  assert (Hmain :
    main hit scatter infinity camera_new get_ray random_double
      write_colour st =
    put_cerr (nl ++ "Done." ++ nl)
      (fold_left
         (fun s j =>
            scanline hit scatter infinity camera_new get_ray
              random_double write_colour j s)
         (rows_top_down 450)
         (put_cout ("P3" ++ nl ++ "800 450" ++ nl ++ "255" ++ nl) st))).
  { unfold main. rewrite header_float, image_height_float.
    rewrite for_loop_rows. reflexivity. }
  split; [|split; [|split]].
  - rewrite Hmain.
    rewrite (fold_left_pointwise
               (fun s j =>
                  scanline hit scatter infinity camera_new get_ray
                    random_double write_colour j s) _
               (rows_top_down 450) (fun s j => scanline_eq j s)).
    reflexivity.
  - vm_compute. reflexivity.
  - reflexivity.
  - rewrite Hmain.
    destruct (fold_left_cout
                (fun s j =>
                   scanline hit scatter infinity camera_new get_ray
                     random_double write_colour j s)
                (fun s j => scanline_cout j s)
                (rows_top_down 450)
                (put_cout ("P3" ++ nl ++ "800 450" ++ nl ++ "255" ++ nl)
                   st)) as (cs & L & Htxt).
    exists cs. split.
    + rewrite L, rows_top_down_length. reflexivity.
    + rewrite cout_put_cerr, Htxt, cout_put_cout.
      apply string_app_assoc.
Qed.

End MainFacts.

(* ================================================================= *)
(** * Further properties *)

(** ** [hit_sphere] *)

(** On doubles, the square of [- x] is the square of [x], bit for bit. *)
Lemma float_sqr_opp (x : float) :
  PrimFloat.mul (PrimFloat.opp x) (PrimFloat.opp x) = PrimFloat.mul x x.
Proof.
  apply Prim2SF_inj. rewrite !mul_spec, opp_spec.
  destruct (Prim2SF x) as [s| s | | s m e]; simpl; try reflexivity.
  - unfold SF64mul, SFmul. simpl. destruct s; reflexivity.
  - unfold SF64mul, SFmul. simpl. destruct s; reflexivity.
  - unfold SF64mul, SFmul. destruct s; reflexivity.
Qed.

Section RadiusSign.
Context {F : Type} {D : Double F}.
Hypothesis sqr_neg : forall x : F, mul (neg x) (neg x) = mul x x.

Lemma hit_sphere_radius_sign_gen (center : point3 F) (radius : F)
    (r : ray F) :
  hit_sphere center (neg radius) r = hit_sphere center radius r.
Proof. unfold hit_sphere. rewrite sqr_neg. reflexivity. Qed.
End RadiusSign.

(** X1: the radius enters [hit_sphere] only through its square, so a sphere
    of radius [- r] (the hollow shells of [main]) gives the same result as
    one of radius [r]: bit for bit on doubles, and over the reals. *)
Theorem hit_sphere_radius_sign :
  (forall (center : point3 float) (radius : float) (r : ray float),
      hit_sphere center (- radius)%float r = hit_sphere center radius r)
  /\ (forall (center : point3 R) (radius : R) (r : ray R),
      hit_sphere center (- radius)%R r = hit_sphere center radius r).
Proof.
  split; intros center radius r.
  - apply (@hit_sphere_radius_sign_gen float Double_float float_sqr_opp).
  - apply (@hit_sphere_radius_sign_gen R Double_R). intros x. simpl. ring.
Qed.

Lemma float_sub_nan (x : float) : PrimFloat.sub x nan = nan.
Proof.
  apply Prim2SF_inj. rewrite sub_spec.
  change (Prim2SF nan) with S754_nan.
  destruct (Prim2SF x); reflexivity.
Qed.

Lemma float_div_nan (x : float) : PrimFloat.div nan x = nan.
Proof.
  apply Prim2SF_inj. rewrite div_spec.
  change (Prim2SF nan) with S754_nan.
  destruct (Prim2SF x); reflexivity.
Qed.

(** X2: on doubles, when the discriminant is NaN (a NaN among the inputs,
    or an overflow met on the way) the test [discriminant < 0] is false and
    [hit_sphere] returns NaN: not the no-hit value -1.0. *)
Theorem hit_sphere_nan (center : point3 float) (radius : float)
    (r : ray float) :
  discriminant_of center radius r = nan ->
  hit_sphere center radius r = nan.
Proof.
  intros Hd. rewrite hit_sphere_eq, Hd.
  change (ltb nan (of_int 0)) with false. cbv iota.
  unfold near_root. rewrite Hd.
  change (sqrt nan) with nan.
  change (@sub float Double_float) with PrimFloat.sub.
  change (@div float Double_float) with PrimFloat.div.
  rewrite float_sub_nan. apply float_div_nan.
Qed.


(** ** [ray::at] on doubles *)

(** Zero times a finite double is a zero, of either sign. *)
Lemma float_zero_mul (d : float) :
  finite_double d = true ->
  exists s : bool, Prim2SF (PrimFloat.mul 0 d) = S754_zero s.
Proof.
  unfold finite_double. intros H. rewrite mul_spec.
  change (Prim2SF 0) with (S754_zero false).
  destruct (Prim2SF d) as [s|s| |s m e]; try discriminate;
    eexists; reflexivity.
Qed.

(** Adding a zero of either sign to a double other than -0 gives that
    double back. *)
Lemma float_add_zero (o z : float) (s : bool) :
  Prim2SF z = S754_zero s ->
  minus_zero o = false ->
  PrimFloat.add o z = o.
Proof.
  unfold minus_zero. intros Hz Ho. apply Prim2SF_inj.
  rewrite add_spec, Hz.
  destruct (Prim2SF o) as [so|so| |so m e]; destruct s;
    try destruct so; try discriminate; reflexivity.
Qed.

Lemma float_at_zero (o d : float) :
  finite_double d = true ->
  minus_zero o = false ->
  PrimFloat.add o (PrimFloat.mul 0 d) = o.
Proof.
  intros Hd Ho. destruct (float_zero_mul d Hd) as [s Hs].
  exact (float_add_zero o _ Hs Ho).
Qed.

(** X8: on doubles a ray starts at its origin: [at(0)] is the origin, bit
    for bit, when the components of the direction are finite and no
    component of the origin is -0. *)
Theorem ray_at_zero (r : ray float) :
  all_finite (direction r) = true ->
  some_minus_zero (origin r) = false ->
  at_ r (of_int 0) = origin r.
Proof.
  destruct r as [[ox oy oz] [dx dy dz]].
  unfold all_finite, some_minus_zero, at_, vadd, smul, origin, direction.
  simpl. intros Hd Ho.
  apply andb_prop in Hd. destruct Hd as [Hd Hdz].
  apply andb_prop in Hd. destruct Hd as [Hdx Hdy].
  apply orb_false_elim in Ho. destruct Ho as [Ho Hoz].
  apply orb_false_elim in Ho. destruct Ho as [Hox Hoy].
  change (F64.of_int 0) with 0%float.
  rewrite (float_at_zero ox dx Hdx Hox), (float_at_zero oy dy Hdy Hoy),
    (float_at_zero oz dz Hdz Hoz).
  reflexivity.
Qed.

(** Both conditions are needed: 0 * inf is NaN, and -0 + 0 is +0. *)
Example ray_at_zero_edges :
  at_ (mk_ray (mk_vec3 1%float 2%float 3%float)
         (mk_vec3 infinity 1%float 1%float)) (of_int 0)
  = mk_vec3 nan 2%float 3%float
  /\ at_ (mk_ray (mk_vec3 (-0)%float 2%float 3%float)
            (mk_vec3 1%float 1%float 1%float)) (of_int 0)
     = mk_vec3 0%float 2%float 3%float
  /\ Prim2SF (-0)%float <> Prim2SF 0%float.
Proof.
  repeat split; try (vm_compute; reflexivity). vm_compute. discriminate.
Qed.


(** ** The integrator *)

Section IntegratorMore.
Context {F : Type} {D : Double F}.
Variables G hittable material : Type.
Variable hit :
  hittable -> ray F -> F -> F -> G -> option (hit_record F material) * G.
Variable scatter :
  material -> ray F -> hit_record F material -> G ->
  option (color F * ray F) * G.
Variable infinity : F.

Lemma ray_color_fuel_count (fuel : nat) :
  forall (r : ray F) (world : hittable) (depth : Z) (h0 s0 : nat) (g : G),
  exists h s : nat,
    ray_color_fuel (counted_hit hit) (counted_scatter scatter) infinity
      fuel r world depth ((h0, s0), g) =
      (fst (ray_color_fuel hit scatter infinity fuel r world depth g),
       ((h0 + h, s0 + s)%nat,
        snd (ray_color_fuel hit scatter infinity fuel r world depth g)))
    /\ (s <= h <= S s)%nat
    /\ (h <= fuel)%nat.
Proof.
  induction fuel as [|fuel IH]; intros r world depth h0 s0 g.
  - exists 0%nat, 0%nat. simpl. rewrite !Nat.add_0_r.
    destruct (depth <=? 0)%Z; simpl; repeat split; lia.
  - simpl. destruct (depth <=? 0)%Z eqn:E.
    + exists 0%nat, 0%nat. simpl. rewrite !Nat.add_0_r. repeat split; lia.
    + unfold counted_hit at 1. simpl.
      destruct (hit world r (lit 0.001) infinity g) as [[rec|] g1].
      * unfold counted_scatter at 1. simpl.
        destruct (scatter (mat_ptr rec) r rec g1) as [[[att sc]|] g2].
        -- destruct (IH sc world (depth - 1)%Z (S h0) (S s0) g2)
             as (h & s & Hq & Hhs & Hlen).
           rewrite Hq.
           destruct (ray_color_fuel hit scatter infinity fuel sc world
                       (depth - 1) g2) as [c g3].
           exists (S h), (S s). simpl.
           replace (h0 + S h)%nat with (S (h0 + h)) by lia.
           replace (s0 + S s)%nat with (S (s0 + s)) by lia.
           repeat split; lia.
        -- exists 1%nat, 1%nat. simpl.
           replace (h0 + 1)%nat with (S h0) by lia.
           replace (s0 + 1)%nat with (S s0) by lia.
           repeat split; lia.
      * exists 1%nat, 0%nat. simpl.
        replace (h0 + 1)%nat with (S h0) by lia.
        rewrite Nat.add_0_r. repeat split; lia.
Qed.

(** X10: evaluated against a scene and materials that count their calls,
    [ray_color] returns what it returns against the plain ones, makes at
    most [depth] scene queries, and never more [scatter] calls than
    queries: each follows a query, and at most one query goes without. *)
Theorem ray_color_work (r : ray F) (world : hittable) (depth : Z)
    (h0 s0 : nat) (g : G) :
  exists h s : nat,
    ray_color (counted_hit hit) (counted_scatter scatter) infinity
      r world depth ((h0, s0), g) =
      (fst (ray_color hit scatter infinity r world depth g),
       ((h0 + h, s0 + s)%nat,
        snd (ray_color hit scatter infinity r world depth g)))
    /\ (s <= h <= S s)%nat
    /\ (h <= Z.to_nat depth)%nat.
Proof.
  unfold ray_color.
  apply (ray_color_fuel_count (Z.to_nat depth) r world depth h0 s0 g).
Qed.

Variable hit' :
  hittable -> ray F -> F -> F -> G -> option (hit_record F material) * G.

(** X11: two scenes that answer alike on the interval (0.001, infinity)
    give the same colour and final state, whatever they answer on other
    intervals. *)
Theorem ray_color_interval_only :
  (forall (w : hittable) (r : ray F) (g : G),
      hit w r (lit 0.001) infinity g = hit' w r (lit 0.001) infinity g) ->
  forall (r : ray F) (world : hittable) (depth : Z) (g : G),
    ray_color hit scatter infinity r world depth g =
    ray_color hit' scatter infinity r world depth g.
Proof.
  intros Hagree r world depth g. unfold ray_color.
  generalize (Z.to_nat depth) as fuel. intros fuel.
  revert r depth g.
  induction fuel as [|fuel IH]; intros r depth g; [reflexivity|].
  simpl. destruct (depth <=? 0)%Z; [reflexivity|].
  rewrite <- Hagree.
  destruct (hit world r (lit 0.001) infinity g) as [[rec|] g1];
    [|reflexivity].
  destruct (scatter (mat_ptr rec) r rec g1) as [[[att sc]|] g2];
    [|reflexivity].
  rewrite IH. reflexivity.
Qed.

End IntegratorMore.

Section ClosedScene.
Variables G hittable material : Type.
Variable hit :
  hittable -> ray float -> float -> float -> G ->
  option (hit_record float material) * G.
Variable scatter :
  material -> ray float -> hit_record float material -> G ->
  option (color float * ray float) * G.
Variable infinity : float.

(** A finite double that is not negative, times +0, is +0. *)
Lemma float_mul_zero (c : float) :
  finite_nonneg c = true -> PrimFloat.mul c 0 = 0%float.
Proof.
  unfold finite_nonneg. intros H. apply Prim2SF_inj. rewrite mul_spec.
  change (Prim2SF 0) with (S754_zero false).
  destruct (Prim2SF c) as [s|s| |s m e]; try discriminate;
    destruct s; try discriminate; reflexivity.
Qed.

Lemma vmul_black (c : color float) :
  all_finite_nonneg c = true -> vmul c black = black.
Proof.
  destruct c as [cx cy cz]. unfold all_finite_nonneg, vmul, black. simpl.
  intros H.
  apply andb_prop in H. destruct H as [H Hz].
  apply andb_prop in H. destruct H as [Hx Hy].
  change (F64.of_int 0) with 0%float.
  rewrite (float_mul_zero cx Hx), (float_mul_zero cy Hy),
    (float_mul_zero cz Hz).
  reflexivity.
Qed.

(** X12: on doubles, in a scene where every query on (0.001, infinity)
    hits, no light is gathered: when the attenuations that the materials
    return have finite components that are not negative, [ray_color]
    returns exactly black, (0, 0, 0), at every depth. *)
Theorem ray_color_closed_scene (world : hittable) :
  (forall (r : ray float) (g : G),
      fst (hit world r (lit 0.001) infinity g) <> None) ->
  (forall (m : material) (r : ray float) (rec : hit_record float material)
          (g g' : G) (att : color float) (sc : ray float),
      scatter m r rec g = (Some (att, sc), g') ->
      all_finite_nonneg att = true) ->
  forall (r : ray float) (depth : Z) (g : G),
    fst (ray_color hit scatter infinity r world depth g) = black.
Proof.
  intros Hclosed Hatt r depth g.
  remember (Z.to_nat depth) as n eqn:En. revert r depth g En.
  induction n as [|n IH]; intros r depth g En; rewrite ray_color_eq.
  - destruct (Z.leb_spec depth 0) as [_|H]; [reflexivity | lia].
  - destruct (Z.leb_spec depth 0) as [H|_]; [lia|].
    pose proof (Hclosed r g) as Hh.
    destruct (hit world r (lit 0.001) infinity g) as [[rec|] g1];
      [|exfalso; apply Hh; reflexivity].
    destruct (scatter (mat_ptr rec) r rec g1) as [[[att sc]|] g2] eqn:Es;
      [|reflexivity].
    pose proof (IH sc (depth - 1)%Z g2 ltac:(lia)) as Hrec.
    destruct (ray_color hit scatter infinity sc world (depth - 1) g2)
      as [c g3].
    simpl in Hrec |- *. rewrite Hrec.
    apply vmul_black. exact (Hatt _ _ _ _ _ _ _ Es).
Qed.
End ClosedScene.

(** The condition on the attenuations is needed: an infinite component
    turns the black of the depth limit into NaN, a negative one into -0. *)
Example attenuation_edges :
  vmul (mk_vec3 infinity 1%float (-1)%float) (black (F := float))
  = mk_vec3 nan 0%float (-0)%float.
Proof. vm_compute. reflexivity. Qed.

Section EnergyBound.
Variables G hittable material : Type.
Variable hit :
  hittable -> ray float -> float -> float -> G ->
  option (hit_record float material) * G.
Variable scatter :
  material -> ray float -> hit_record float material -> G ->
  option (color float * ray float) * G.
Variable infinity : float.

Lemma unit_color_vmul (a c : color float) :
  unit_color a = true -> unit_color c = true -> unit_color (vmul a c) = true.
Proof.
  destruct a as [ax ay az], c as [cx cy cz]. unfold unit_color, vmul.
  cbn [x y z]. intros Ha Hc.
  apply andb_prop in Ha. destruct Ha as [Ha Haz].
  apply andb_prop in Ha. destruct Ha as [Hax Hay].
  apply andb_prop in Hc. destruct Hc as [Hc Hcz].
  apply andb_prop in Hc. destruct Hc as [Hcx Hcy].
  change (@mul float Double_float) with PrimFloat.mul.
  rewrite (@in_unit_mul _ _ Hax Hcx), (@in_unit_mul _ _ Hay Hcy),
    (@in_unit_mul _ _ Haz Hcz).
  reflexivity.
Qed.

Lemma unit_color_background (r : ray float) :
  in_unit (sky_t r) = true -> unit_color (background r) = true.
Proof.
  intros Ht. rewrite background_float. unfold unit_color. cbn [x y z].
  rewrite (@blend_in_unit (sky_t r) 0.5 Ht eq_refl),
    (@blend_in_unit (sky_t r) 0.7 Ht eq_refl),
    (@blend_in_unit (sky_t r) 1 Ht eq_refl).
  reflexivity.
Qed.

(** X13: on doubles no energy is created: if every attenuation that a
    material returns has its components between 0 and 1, and the blend
    parameter of the first ray and of every scattered ray, as computed,
    lies between 0 and 1, then every component of the colour [ray_color]
    returns lies between 0 and 1. *)
Theorem ray_color_energy_bound :
  (forall (m : material) (r : ray float) (rec : hit_record float material)
          (g g' : G) (att : color float) (sc : ray float),
      scatter m r rec g = (Some (att, sc), g') ->
      unit_color att = true /\ in_unit (sky_t sc) = true) ->
  forall (r : ray float) (world : hittable) (depth : Z) (g : G),
    in_unit (sky_t r) = true ->
    unit_color (fst (ray_color hit scatter infinity r world depth g)) = true.
Proof.
  intros Hsc r world depth g.
  remember (Z.to_nat depth) as n eqn:En. revert r depth g En.
  induction n as [|n IH]; intros r depth g En Hdir; rewrite ray_color_eq.
  - destruct (Z.leb_spec depth 0) as [_|H]; [reflexivity | lia].
  - destruct (Z.leb_spec depth 0) as [H|_]; [lia|].
    destruct (hit world r (lit 0.001) infinity g) as [[rec|] g1].
    + destruct (scatter (mat_ptr rec) r rec g1) as [[[att sc]|] g2] eqn:Es;
        [|reflexivity].
      destruct (Hsc _ _ _ _ _ _ _ Es) as [Hatt Hdsc].
      pose proof (IH sc (depth - 1)%Z g2 ltac:(lia) Hdsc) as Hrec.
      destruct (ray_color hit scatter infinity sc world (depth - 1) g2)
        as [c g3].
      cbn [fst] in Hrec |- *. apply unit_color_vmul; assumption.
    + cbv zeta. change (fst (?c, g1)) with c. fold (background r).
      apply unit_color_background. exact Hdir.
Qed.
End EnergyBound.


(** ** [main] *)

Section MainMore.
Context {F : Type} {D : Double F}.
Variable G : Type.
Variable hit :
  hittable_list F -> ray F -> F -> F -> G ->
  option (hit_record F (material F)) * G.
Variable scatter :
  material F -> ray F -> hit_record F (material F) -> G ->
  option (color F * ray F) * G.
Variable infinity : F.
Variable camera : Type.
Variable camera_new :
  point3 F -> point3 F -> vec3 F -> F -> F -> F -> F -> camera.
Variable get_ray : camera -> F -> F -> G -> ray F * G.
Variable random_double : G -> F * G.
Variable write_colour : color F -> Z -> string.
Local Open Scope string_scope.

Lemma cerr_pixel (j i : Z) (st : process G) :
  cerr (pixel hit scatter infinity camera_new get_ray random_double
          write_colour j i st) = cerr st.
Proof.
  unfold pixel. destruct (for_loop _ _ _ _ _ _) as [pc g]. reflexivity.
Qed.

Lemma cerr_put_cerr (txt : string) (st : process G) :
  cerr (put_cerr txt st) = cerr st ++ txt.
Proof. reflexivity. Qed.

Lemma cerr_put_cout (txt : string) (st : process G) :
  cerr (put_cout txt st) = cerr st.
Proof. reflexivity. Qed.

Lemma fold_left_cerr_keep (A : Type) (f : process G -> A -> process G) :
  (forall s a, cerr (f s a) = cerr s) ->
  forall (l : list A) (st : process G), cerr (fold_left f l st) = cerr st.
Proof.
  intros Hf. induction l as [|a l IH]; intros st; cbn [fold_left];
    [reflexivity|].
  rewrite IH. apply Hf.
Qed.

Lemma fold_left_cerr_notes (f : process G -> Z -> process G) :
  (forall s j, cerr (f s j) = cerr s ++ progress_note j) ->
  forall (l : list Z) (st : process G),
    cerr (fold_left f l st) = cerr st ++ cat (map progress_note l).
Proof.
  intros Hf. induction l as [|a l IH]; intros st;
    cbn [fold_left map cat fold_right].
  - symmetry. apply string_app_nil_r.
  - rewrite IH, Hf. apply string_app_assoc.
Qed.

Lemma cerr_scanline (j : Z) (st : process G) :
  cerr (scanline hit scatter infinity camera_new get_ray random_double
          write_colour j st) = cerr st ++ progress_note j.
Proof.
  unfold scanline. rewrite for_loop_cols.
  rewrite (fold_left_cerr_keep
             (fun s i =>
                pixel hit scatter infinity camera_new get_ray random_double
                  write_colour j i s)
             (fun s i => cerr_pixel j i s)).
  apply cerr_put_cerr.
Qed.

Lemma main_stderr_gen (st : process G) :
  cerr (main hit scatter infinity camera_new get_ray random_double
          write_colour st)
  = cerr st ++ cat (map progress_note (rows_top_down image_height))
      ++ nl ++ "Done." ++ nl.
Proof.
  unfold main. rewrite cerr_put_cerr, for_loop_rows.
  rewrite (fold_left_cerr_notes
             (fun s j =>
                scanline hit scatter infinity camera_new get_ray
                  random_double write_colour j s)
             (fun s j => cerr_scanline j s)).
  rewrite cerr_put_cout. apply string_app_assoc.
Qed.
End MainMore.

Example progress_note_449 :
  progress_note 449 = (cr ++ "Scanlines remaining: 449 ")%string.
Proof. reflexivity. Qed.

(** X15: whatever the scene, the camera and the random source do, [main]
    adds to the standard error the note "Scanlines remaining: j " for
    j = 449, 448, ..., 0, each after a carriage return, and then "Done."
    between two new lines. *)
Theorem main_stderr :
  forall (G : Type)
         (hit : hittable_list float -> ray float -> float -> float -> G ->
                option (hit_record float (material float)) * G)
         (scatter : material float -> ray float ->
                    hit_record float (material float) -> G ->
                    option (color float * ray float) * G)
         (infinity : float) (camera : Type)
         (camera_new : point3 float -> point3 float -> vec3 float ->
                       float -> float -> float -> float -> camera)
         (get_ray : camera -> float -> float -> G -> ray float * G)
         (random_double : G -> float * G)
         (write_colour : color float -> Z -> string)
         (st : process G),
    cerr (main hit scatter infinity camera_new get_ray random_double
            write_colour st)
    = (cerr st ++ cat (map progress_note (rows_top_down 450))
         ++ nl ++ "Done." ++ nl)%string.
Proof.
  intros. rewrite main_stderr_gen, image_height_float. reflexivity.
Qed.

Section RayCounterFacts.
Context {F : Type} {D : Double F}.
Variable G : Type.
Variable hit :
  hittable_list F -> ray F -> F -> F -> G ->
  option (hit_record F (material F)) * G.
Variable scatter :
  material F -> ray F -> hit_record F (material F) -> G ->
  option (color F * ray F) * G.
Variable infinity : F.
Variable camera : Type.
Variable camera_new :
  point3 F -> point3 F -> vec3 F -> F -> F -> F -> F -> camera.
Variable get_ray : camera -> F -> F -> G -> ray F * G.
Variable random_double : G -> F * G.
Variable write_colour : color F -> Z -> string.

Lemma ray_color_tally (r : ray F) (w : hittable_list F) (depth : Z)
    (n : Z) (g : G) :
  ray_color (tally_hit hit) (tally_scatter scatter) infinity r w depth (n, g)
  = (fst (ray_color hit scatter infinity r w depth g),
     (n, snd (ray_color hit scatter infinity r w depth g))).
Proof.
  unfold ray_color. generalize (Z.to_nat depth) as fuel. intros fuel.
  revert r depth g.
  induction fuel as [|fuel IH]; intros r depth g.
  - simpl. destruct (depth <=? 0)%Z; reflexivity.
  - simpl. destruct (depth <=? 0)%Z; [reflexivity|].
    unfold tally_hit at 1. simpl.
    destruct (hit w r (lit 0.001) infinity g) as [[rec|] g1]; [|reflexivity].
    unfold tally_scatter at 1. simpl.
    destruct (scatter (mat_ptr rec) r rec g1) as [[[att sc]|] g2];
      [|reflexivity].
    rewrite IH.
    destruct (ray_color_fuel hit scatter infinity fuel sc w (depth - 1) g2).
    reflexivity.
Qed.

Lemma sample_tally (i j : Z) (pc : color F) (n : Z) (g : G) :
  sample (tally_hit hit) (tally_scatter scatter) infinity camera_new
    (tally_get_ray get_ray) (tally_random_double random_double) i j
    (pc, (n, g))
  = (fst (sample hit scatter infinity camera_new get_ray random_double i j
            (pc, g)),
     ((n + 1)%Z,
      snd (sample hit scatter infinity camera_new get_ray random_double i j
             (pc, g)))).
Proof.
  unfold sample. unfold tally_random_double at 1. simpl.
  destruct (random_double g) as [rd1 g1].
  unfold tally_random_double at 1. simpl.
  destruct (random_double g1) as [rd2 g2].
  unfold tally_get_ray at 1. simpl.
  destruct (get_ray _ _ _ g2) as [r g3].
  rewrite ray_color_tally.
  destruct (ray_color hit scatter infinity r world max_depth g3).
  reflexivity.
Qed.

Lemma samples_tally (i j : Z) (l : list Z) :
  forall (pc : color F) (n : Z) (g : G),
    fold_left
      (fun acc (_ : Z) =>
         sample (tally_hit hit) (tally_scatter scatter) infinity camera_new
           (tally_get_ray get_ray) (tally_random_double random_double) i j
           acc) l (pc, (n, g))
    = (fst (fold_left
              (fun acc (_ : Z) =>
                 sample hit scatter infinity camera_new get_ray
                   random_double i j acc) l (pc, g)),
       ((n + Z.of_nat (List.length l))%Z,
        snd (fold_left
               (fun acc (_ : Z) =>
                  sample hit scatter infinity camera_new get_ray
                    random_double i j acc) l (pc, g)))).
Proof.
  induction l as [|a l IH]; intros pc n g; cbn [fold_left List.length].
  - rewrite Z.add_0_r. reflexivity.
  - rewrite sample_tally, IH.
    replace (Z.of_nat (S (List.length l)))
      with (1 + Z.of_nat (List.length l))%Z by lia.
    rewrite Z.add_assoc.
    destruct (sample hit scatter infinity camera_new get_ray random_double
                i j (pc, g)) as [pc' g'].
    reflexivity.
Qed.

Lemma advances_fold (A : Type) (k : Z)
    (fc : process (Z * G) -> A -> process (Z * G))
    (fp : process G -> A -> process G) :
  (forall a : A, advances k (fun s => fc s a) (fun s => fp s a)) ->
  forall l : list A,
    advances (k * Z.of_nat (List.length l))
      (fold_left fc l) (fold_left fp l).
Proof.
  intros Hstep. induction l as [|a l IH]; intros st;
    cbn [fold_left List.length].
  - split; [reflexivity | lia].
  - destruct (IH (fc st a)) as [E1 E2].
    destruct (Hstep a st) as [S1 S2].
    split.
    + rewrite E1, S1. reflexivity.
    + rewrite E2, S2. lia.
Qed.

Lemma advances_pixel (j i : Z) :
  advances 250
    (pixel (tally_hit hit) (tally_scatter scatter) infinity camera_new
       (tally_get_ray get_ray) (tally_random_double random_double)
       write_colour j i)
    (pixel hit scatter infinity camera_new get_ray random_double
       write_colour j i).
Proof.
  intros st. unfold pixel. rewrite !for_loop_cols.
  destruct st as [[n g] out err]. cbn [glob cout cerr untallied fst snd].
  rewrite samples_tally.
  rewrite (cols_left_right_length samples_per_pixel).
  destruct (fold_left _ (cols_left_right samples_per_pixel) (black, g))
    as [pc g'].
  cbn [fst snd]. split; reflexivity.
Qed.

Lemma advances_scanline (j : Z) :
  advances (250 * 800)
    (scanline (tally_hit hit) (tally_scatter scatter) infinity camera_new
       (tally_get_ray get_ray) (tally_random_double random_double)
       write_colour j)
    (scanline hit scatter infinity camera_new get_ray random_double
       write_colour j).
Proof.
  intros st. unfold scanline. rewrite !for_loop_cols.
  destruct (advances_fold
              (fun s i =>
                 pixel (tally_hit hit) (tally_scatter scatter) infinity
                   camera_new (tally_get_ray get_ray)
                   (tally_random_double random_double) write_colour j i s)
              (fun s i =>
                 pixel hit scatter infinity camera_new get_ray
                   random_double write_colour j i s)
              (advances_pixel j) (cols_left_right image_width)
              (put_cerr
                 (cr ++ "Scanlines remaining: " ++ show_int j ++ " ") st))
    as [E1 E2].
  rewrite cols_left_right_length in E2.
  split; [exact E1 | exact E2].
Qed.

Lemma advances_main :
  advances (250 * 800 * Z.of_nat (Z.to_nat image_height))
    (main (tally_hit hit) (tally_scatter scatter) infinity camera_new
       (tally_get_ray get_ray) (tally_random_double random_double)
       write_colour)
    (main hit scatter infinity camera_new get_ray random_double
       write_colour).
Proof.
  intros st. unfold main. rewrite !for_loop_rows.
  destruct (advances_fold
              (fun s j =>
                 scanline (tally_hit hit) (tally_scatter scatter) infinity
                   camera_new (tally_get_ray get_ray)
                   (tally_random_double random_double) write_colour j s)
              (fun s j =>
                 scanline hit scatter infinity camera_new get_ray
                   random_double write_colour j s)
              advances_scanline (rows_top_down image_height)
              (put_cout header st))
    as [E1 E2].
  rewrite rows_top_down_length in E2.
  split.
  - change (untallied (put_cerr ?t ?s)) with (put_cerr t (untallied s)).
    rewrite E1. reflexivity.
  - change (fst (glob (put_cerr ?t ?s))) with (fst (glob s)).
    rewrite E2. reflexivity.
Qed.
End RayCounterFacts.

(** X16: with a counter of camera rays carried next to the outside state,
    [main] does what it does without the counter and advances it by exactly
    250 * 800 * 450 = 90000000: one [get_ray] call for each sample of each
    pixel. *)
Theorem main_primary_rays :
  forall (G : Type)
         (hit : hittable_list float -> ray float -> float -> float -> G ->
                option (hit_record float (material float)) * G)
         (scatter : material float -> ray float ->
                    hit_record float (material float) -> G ->
                    option (color float * ray float) * G)
         (infinity : float) (camera : Type)
         (camera_new : point3 float -> point3 float -> vec3 float ->
                       float -> float -> float -> float -> camera)
         (get_ray : camera -> float -> float -> G -> ray float * G)
         (random_double : G -> float * G)
         (write_colour : color float -> Z -> string)
         (st : process (Z * G)),
    untallied
      (main (tally_hit hit) (tally_scatter scatter) infinity camera_new
         (tally_get_ray get_ray) (tally_random_double random_double)
         write_colour st)
    = main hit scatter infinity camera_new get_ray random_double
        write_colour (untallied st)
    /\ fst (glob
              (main (tally_hit hit) (tally_scatter scatter) infinity
                 camera_new (tally_get_ray get_ray)
                 (tally_random_double random_double) write_colour st))
       = (fst (glob st) + 90000000)%Z.
Proof.
  intros.
  destruct (advances_main hit scatter infinity camera_new get_ray
              random_double write_colour st) as [E1 E2].
  split; [exact E1|].
  rewrite E2, image_height_float. reflexivity.
Qed.

(** ** The further properties on concrete inputs *)

Lemma hit_sphere_nan_witness :
  hit_sphere Demo.sphere_center nan Demo.ray_in_front = nan.
Proof.
  apply (@hit_sphere_nan Demo.sphere_center nan Demo.ray_in_front).
  vm_compute. reflexivity.
Defined.

Lemma ray_at_zero_witness :
  at_ Demo.ray_in_front (of_int 0) = origin Demo.ray_in_front.
Proof.
  apply (@ray_at_zero Demo.ray_in_front).
  - vm_compute. reflexivity.
  - vm_compute. reflexivity.
Defined.

Lemma ray_color_interval_only_witness :
  ray_color Demo.hit Demo.scatter infinity Demo.ray_in_front Demo.Pane 3 0%nat
  = ray_color Probe.picky_hit Demo.scatter infinity Demo.ray_in_front
      Demo.Pane 3 0%nat.
Proof.
  apply (@ray_color_interval_only float Double_float Demo.G Demo.scene bool
           Demo.hit Demo.scatter infinity Probe.picky_hit).
  intros w r g. reflexivity.
Defined.

Lemma ray_color_closed_scene_witness :
  fst (ray_color Demo.hit Demo.scatter infinity Demo.ray_in_front Demo.Shiny
         5 0%nat) = black.
Proof.
  apply (@ray_color_closed_scene Demo.G Demo.scene bool Demo.hit
           Demo.scatter infinity Demo.Shiny).
  - intros r g. simpl. discriminate.
  - intros m r rec g g' att sc H. unfold Demo.scatter in H.
    destruct m; [|discriminate]. injection H as <- _ _.
    vm_compute. reflexivity.
Defined.

Lemma ray_color_energy_bound_witness :
  unit_color
    (fst (ray_color Demo.hit Probe.scatter_up infinity Demo.ray_in_front
            Demo.Pane 5 0%nat)) = true.
Proof.
  apply (@ray_color_energy_bound Demo.G Demo.scene bool Demo.hit
           Probe.scatter_up infinity).
  - intros m r rec g g' att sc H. unfold Probe.scatter_up in H.
    destruct m; [|discriminate]. injection H as <- <- _.
    split; vm_compute; reflexivity.
  - vm_compute. reflexivity.
Defined.
